(** * Incremental ingestion core of document-review-rag

  A shallow embedding of [src/chunking/text_chunker.py] (class
  [TextChunker]) and [src/utils/file_tracker.py] (class [FileTracker]),
  together with the properties of the two components.

  Conventions.
  - A Python [str] is a [string]; a character is a code point below 256.
  - A Python [int] is a [Z].
  - A Python exception is a constructor of [exn]; a function that can
    raise returns a [res].
  - The tracking dictionary keeps Python's insertion order, so it is an
    association list; the chunk dictionaries are only read by key, so
    they are [gmap]s.
  - [st_mtime] is only stored and compared for equality; it is a [Z].
  - What the methods print is left out. *)

From Stdlib Require Import ZArith Ascii String.
From stdpp Require Import base list strings gmap.

Local Open Scope Z_scope.

(** ** Python built-ins used by the two classes *)

Module Py.

(** [len(s)] *)
Definition len (s : string) : Z := Z.of_nat (String.length s).

(** Index normalisation of a slice bound: negative bounds count from the
    end, and every bound is clamped to [0, n]. *)
Definition clamp (n i : Z) : Z :=
  if i <? 0 then Z.max 0 (i + n) else Z.min i n.

(** [s[a:b]] *)
Definition slice (s : string) (a b : Z) : string :=
  let lo := clamp (len s) a in
  let hi := clamp (len s) b in
  String.substring (Z.to_nat lo) (Z.to_nat (hi - lo)) s.

(** [s[a:]] *)
Definition slice_from (s : string) (a : Z) : string :=
  let lo := clamp (len s) a in
  String.substring (Z.to_nat lo) (String.length s - Z.to_nat lo) s.

(** [sep in s] *)
Fixpoint contains (sep s : string) : bool :=
  String.prefix sep s ||
  match s with
  | EmptyString => false
  | String _ s' => contains sep s'
  end.

(** [s.split(sep)] for a non-empty [sep]: a left-to-right scan for
    non-overlapping occurrences.  [skip] counts the characters of an
    occurrence that are still to be passed over, [cur] is the part read
    so far. *)
Fixpoint split_go (sep : string) (skip : nat) (cur s : string) : list string :=
  match s with
  | EmptyString => [cur]
  | String ch s' =>
      match skip with
      | S k => split_go sep k cur s'
      | O =>
          if String.prefix sep s
          then cur :: split_go sep (String.length sep - 1) EmptyString s'
          else split_go sep O (cur +:+ String ch EmptyString) s'
      end
  end.

Definition split (s sep : string) : list string := split_go sep O EmptyString s.

(** [str.isspace] on one character, for code points below 256:
    TAB, LF, VT, FF, CR, FS, GS, RS, US, SPACE, NEL and NBSP. *)
Definition is_space (ch : ascii) : bool :=
  let n := Z.of_nat (nat_of_ascii ch) in
  ((9 <=? n) && (n <=? 13)) || ((28 <=? n) && (n <=? 32))
  || (n =? 133) || (n =? 160).

Fixpoint lstrip (s : string) : string :=
  match s with
  | EmptyString => EmptyString
  | String ch s' => if is_space ch then lstrip s' else s
  end.

Fixpoint rstrip (s : string) : string :=
  match s with
  | EmptyString => EmptyString
  | String ch s' =>
      match rstrip s' with
      | EmptyString => if is_space ch then EmptyString else String ch EmptyString
      | r => String ch r
      end
  end.

(** [s.strip()] *)
Definition strip (s : string) : string := rstrip (lstrip s).

(** Truth value of a string: [if s:] *)
Definition truthy (s : string) : bool :=
  match s with EmptyString => false | _ => true end.

(** The values of [range(start, stop, step)] for a non-zero [step]. *)
Definition range_values (start stop step : Z) : list Z :=
  let n := if 0 <? step
           then (stop - start + step - 1) / step
           else (start - stop - step - 1) / (- step) in
  map (fun k => start + Z.of_nat k * step) (seq 0 (Z.to_nat n)).

(** [posixpath.basename]: what follows the last slash. *)
Fixpoint basename (p : string) : string :=
  match p with
  | EmptyString => EmptyString
  | String ch p' =>
      if contains "/" p' then basename p'
      else if Ascii.eqb ch "/" then p' else p
  end.

(** Position of the last occurrence of [ch] in [s] ([s.rfind(ch)]),
    [-1] when there is none. *)
Fixpoint rfind (ch : ascii) (s : string) : Z :=
  match s with
  | EmptyString => -1
  | String c s' =>
      let r := rfind ch s' in
      if 0 <=? r then r + 1 else if Ascii.eqb c ch then 0 else -1
  end.

(** [genericpath._splitext]'s scan: is there a character other than a
    dot in [p[i:dot]]? *)
Definition only_dots (s : string) : bool :=
  forallb (fun c => Ascii.eqb c ".") (String.list_ascii_of_string s).

(** [posixpath.splitext(p)[1]] *)
Definition splitext_ext (p : string) : string :=
  let sepIndex := rfind "/" p in
  let dotIndex := rfind "." p in
  if sepIndex <? dotIndex then
    if only_dots (slice p (sepIndex + 1) dotIndex) then EmptyString
    else slice_from p dotIndex
  else EmptyString.

End Py.

(** ** Exceptions *)

Inductive exn : Type := ValueError | OSError | KeyError | OverflowError.

(** ** TextChunker *)

Module Chunker.

(** Result of a call: a value, a raised exception, or [Unfinished] when
    the recursion budget of the model ran out (shown below never to
    happen for [_split_text]). *)
Inductive res (A : Type) : Type :=
| Ret (a : A)
| Raise (e : exn)
| Unfinished.
Arguments Ret {A} a.
Arguments Raise {A} e.
Arguments Unfinished {A}.

#[global] Instance res_ret : MRet res := fun A a => Ret a.

#[global] Instance res_bind : MBind res := fun A B k m =>
  match m with
  | Ret a => k a
  | Raise e => Raise e
  | Unfinished => Unfinished
  end.

Record TextChunker := {
  chunk_size : Z;
  chunk_overlap : Z;
  separators : list string
}.

Definition newline : string := String (ascii_of_nat 10) EmptyString.

(** The object that [__init__] fills in: the two arguments are stored
    as given, next to the fixed separator hierarchy. *)
Definition configured (size overlap : Z) : TextChunker :=
  {| chunk_size := size;
     chunk_overlap := overlap;
     separators := [newline +:+ newline; newline; ". "; "! "; "? "; " "; ""] |}.

(** [TextChunker.__init__]: there is no statement that can raise. *)
Definition init (size overlap : Z) : res TextChunker :=
  Ret (configured size overlap).

(** An entry of the local list [chunks] of [_split_text], tagged by the
    statement that appended it: [Buffer b] is the running buffer
    [current_chunk], appended as [current_chunk.strip()]; [Verbatim s]
    is appended as it is (a fixed-stride slice or a chunk of a recursive
    call). *)
Inductive piece : Type :=
| Buffer (b : string)
| Verbatim (s : string).

(** The string that the list [chunks] holds for an entry. *)
Definition render (p : piece) : string :=
  match p with
  | Buffer b => Py.strip b
  | Verbatim s => s
  end.

(** The same entry before [strip()]. *)
Definition unstripped (p : piece) : string :=
  match p with
  | Buffer b => b
  | Verbatim s => s
  end.

(** [range(0, len(text), step)] raises on a zero step. *)
Definition range0 (stop step : Z) : res (list Z) :=
  if step =? 0 then Raise ValueError else Ret (Py.range_values 0 stop step).

(** Lines 41-44: the character-level fallback. *)
Definition char_split (c : TextChunker) (text : string) : res (list piece) :=
  starts ← range0 (Py.len text) (chunk_size c - chunk_overlap c) ;
  Ret (map Verbatim
         (filter (fun s => Py.truthy s = true)
            (map (fun i => Py.slice text i (i + chunk_size c)) starts))).

(** [if current_chunk: chunks.append(current_chunk.strip())] *)
Definition flush (chunks : list piece) (current_chunk : string) : list piece :=
  if Py.truthy current_chunk then chunks ++ [Buffer current_chunk] else chunks.

(** Lines 51-64: the loop over [parts], on the state
    [(chunks, current_chunk)]; [self_split] is the recursive call
    [self._split_text]. *)
Fixpoint pack (self_split : string → res (list string)) (c : TextChunker)
    (separator : string) (parts : list string)
    (chunks : list piece) (current_chunk : string)
    : res (list piece * string) :=
  match parts with
  | [] => Ret (chunks, current_chunk)
  | part :: parts' =>
      if Py.len current_chunk + Py.len part + Py.len separator <=? chunk_size c
      then pack self_split c separator parts' chunks
             (current_chunk +:+ part +:+ separator)
      else
        let chunks1 := flush chunks current_chunk in
        if chunk_size c <? Py.len part
        then sub_chunks ← self_split part ;
             pack self_split c separator parts'
               (chunks1 ++ map Verbatim sub_chunks) EmptyString
        else pack self_split c separator parts' chunks1 (part +:+ separator)
  end.

(** Lines 38-68: the loop over the separators, left at the first one
    that is empty or occurs in [text]. *)
Fixpoint scan (self_split : string → res (list string)) (c : TextChunker)
    (text : string) (seps : list string) : res (list piece) :=
  match seps with
  | [] => Ret []
  | separator :: seps' =>
      if String.eqb separator EmptyString then char_split c text
      else if Py.contains separator text then
        '(chunks, current_chunk) ←
           pack self_split c separator (Py.split text separator) [] EmptyString ;
        Ret (flush chunks current_chunk)
      else scan self_split c text seps'
  end.

(** Line 76 *)
Definition overlap_text (c : TextChunker) (prev_chunk : string) : string :=
  if chunk_overlap c <? Py.len prev_chunk
  then Py.slice_from prev_chunk (- chunk_overlap c)
  else prev_chunk.

(** Lines 73-77: entry [i] is built from [chunks[i-1]] and [chunks[i]]
    of the list before stitching. *)
Fixpoint stitch (c : TextChunker) (prev_chunk : string) (rest : list string)
    : list string :=
  match rest with
  | [] => []
  | curr_chunk :: rest' =>
      (overlap_text c prev_chunk +:+ " " +:+ curr_chunk) :: stitch c curr_chunk rest'
  end.

(** Lines 70-80 *)
Definition add_overlap (c : TextChunker) (chunks : list string) : list string :=
  if (0 <? chunk_overlap c) && (1 <? Z.of_nat (length chunks)) then
    match chunks with
    | [] => []
    | first :: rest => first :: stitch c first rest
    end
  else chunks.

(** [_split_text] with a recursion budget. *)
Fixpoint split_text_fuel (fuel : nat) (c : TextChunker) (text : string)
    : res (list string) :=
  match fuel with
  | O => Unfinished
  | S fuel' =>
      if Py.len text <=? chunk_size c then Ret [text]
      else
        chunks ← scan (split_text_fuel fuel' c) c text (separators c) ;
        Ret (add_overlap c (map render chunks))
  end.

(** [TextChunker._split_text]: a recursive call is made on a part that
    is shorter than the text, so a budget of [len(text) + 1] is enough. *)
Definition _split_text (c : TextChunker) (text : string) : res (list string) :=
  split_text_fuel (S (String.length text)) c text.

(** The list [chunks] of the outermost call as it stands at line 70,
    before the overlap pass, with its entries still tagged. *)
Definition split_pieces (c : TextChunker) (text : string) : res (list piece) :=
  if Py.len text <=? chunk_size c then Ret [Verbatim text]
  else scan (split_text_fuel (String.length text) c) c text (separators c).

(** A value stored under a key of a chunk dictionary. *)
Inductive value : Type :=
| VStr (s : string)
| VInt (n : Z).

#[global] Instance value_eq_dec : EqDecision value.
Proof. solve_decision. Defined.

(** Truth value of the optional argument [metadata]: [None] and the
    empty dictionary are both false. *)
Definition metadata_given (metadata : option (gmap string value)) : bool :=
  match metadata with
  | Some m => negb (bool_decide (m = ∅))
  | None => false
  end.

(** Lines 97-103: the dictionary of chunk [i]; [update] lets the keys of
    [metadata] win over the three keys set before it. *)
Definition chunk_data (metadata : option (gmap string value))
    (total : nat) (i : nat) (chunk : string) : gmap string value :=
  let d : gmap string value :=
    <["total_chunks" := VInt (Z.of_nat total)]>
      (<["chunk_index" := VInt (Z.of_nat i)]>
         (<["text" := VStr chunk]> ∅)) in
  if metadata_given metadata then default ∅ metadata ∪ d else d.

(** [TextChunker.chunk_text] *)
Definition chunk_text (c : TextChunker) (text : string)
    (metadata : option (gmap string value)) : res (list (gmap string value)) :=
  chunks ← _split_text c text ;
  Ret (imap (chunk_data metadata (length chunks)) chunks).

End Chunker.

(** ** FileTracker *)

Module Tracker.

(** One value of the tracking dictionary.  It is a JSON object, read
    with [.get], so every key may be missing. *)
Record FileRecord := {
  size : option Z;
  modified_time : option Z;
  modified_date : option string;
  processed_date : option string;
  chunks_count : option Z;
  content_hash : option string
}.

#[global] Instance FileRecord_eq_dec : EqDecision FileRecord.
Proof. solve_decision. Defined.

(** The dictionary [processed_files], in insertion order. *)
Definition store : Type := list (string * FileRecord).

(** [k in d] *)
Definition dict_in (k : string) (d : store) : bool :=
  existsb (fun kv => String.eqb kv.1 k) d.

(** [d.get(k)] *)
Fixpoint dict_get (k : string) (d : store) : option FileRecord :=
  match d with
  | [] => None
  | (k', v) :: d' => if String.eqb k' k then Some v else dict_get k d'
  end.

(** [d[k] = v]: an existing key keeps its place, a new one goes last. *)
Fixpoint dict_set (k : string) (v : FileRecord) (d : store) : store :=
  match d with
  | [] => [(k, v)]
  | (k', v') :: d' =>
      if String.eqb k' k then (k', v) :: d' else (k', v') :: dict_set k v d'
  end.

(** [del d[k]] *)
Fixpoint dict_del (k : string) (d : store) : store :=
  match d with
  | [] => []
  | (k', v') :: d' => if String.eqb k' k then d' else (k', v') :: dict_del k d'
  end.

(** What a call gives: a value or a raised exception. *)
Inductive outcome (A : Type) : Type :=
| Ok (a : A)
| Err (e : exn).
Arguments Ok {A} a.
Arguments Err {A} e.

(** The file system and the clock, as the tracker sees them. *)
Record World := {
  (** [os.stat(path)]: [(st_size, st_mtime)], [None] when it raises
      [OSError]. *)
  stat : string → option (Z * Z);
  (** SHA-256 hex digest of the bytes of the file, [None] when opening
      or reading it raises [OSError]. *)
  content_digest : string → option string;
  (** [datetime.fromtimestamp(t).isoformat()]; [fromtimestamp] raises
      [ValueError], [OverflowError] or [OSError] for a time stamp outside
      the range of years or of the platform. *)
  isoformat : Z → outcome string;
  (** [datetime.now().isoformat()] *)
  now : string;
  (** Whether the tracking file can be created and written. *)
  can_save : bool
}.

(** The tracking file on disk. *)
Inductive document : Type :=
| Missing
| Corrupt
| Stored (d : store).

(** The tracker object and the tracking file it owns. *)
Record State := {
  tracking_file : string;
  processed_files : store;
  persisted : document
}.

(** A method: it reads and writes the state, and returns or raises. *)
Definition M (A : Type) : Type := State → outcome A * State.

#[global] Instance M_ret : MRet M := fun A a st => (Ok a, st).

#[global] Instance M_bind : MBind M := fun A B k m st =>
  match m st with
  | (Ok a, st') => k a st'
  | (Err e, st') => (Err e, st')
  end.

Definition raise {A} (e : exn) : M A := fun st => (Err e, st).

(** [try: m except ...: handler] *)
Definition try_except {A} (m : M A) (handler : exn → M A) : M A := fun st =>
  match m st with
  | (Ok a, st') => (Ok a, st')
  | (Err e, st') => handler e st'
  end.

Definition get_files : M store := fun st => (Ok (processed_files st), st).

Definition set_files (d : store) : M unit := fun st =>
  (Ok tt, {| tracking_file := tracking_file st;
             processed_files := d;
             persisted := persisted st |}).

(** [_load_tracking_data] *)
Definition _load_tracking_data (doc : document) : store :=
  match doc with
  | Stored d => d
  | Corrupt => []
  | Missing => []
  end.

(** [FileTracker.__init__] *)
Definition init (file : string) (doc : document) : State :=
  {| tracking_file := file;
     processed_files := _load_tracking_data doc;
     persisted := doc |}.

(** [_save_tracking_data]: the whole dictionary replaces the document;
    when the file cannot be created or opened the call raises and the
    document stays. *)
Definition _save_tracking_data (w : World) : M unit := fun st =>
  if can_save w
  then (Ok tt, {| tracking_file := tracking_file st;
                  processed_files := processed_files st;
                  persisted := Stored (processed_files st) |})
  else (Err OSError, st).

(** [_get_file_info]: size, modified time and modified date; it raises
    what [os.stat] or [datetime.fromtimestamp] raises. *)
Definition _get_file_info (w : World) (file_path : string) : M (Z * Z * string) :=
  match stat w file_path with
  | Some (sz, mt) =>
      match isoformat w mt with
      | Ok date => mret (sz, mt, date)
      | Err e => raise e
      end
  | None => raise OSError
  end.

(** [_get_file_hash] *)
Definition _get_file_hash (w : World) (file_path : string) : M string :=
  match content_digest w file_path with
  | Some h => mret h
  | None => raise OSError
  end.

(** Lines 99-100: [current != stored.get(...)] on size or modified time. *)
Definition changed (current_info : Z * Z * string) (stored_info : FileRecord) : bool :=
  negb (bool_decide (Some current_info.1.1 = size stored_info))
  || negb (bool_decide (Some current_info.1.2 = modified_time stored_info)).

(** [self.processed_files[filename]] *)
Definition subscript (filename : string) : M FileRecord :=
  files ← get_files ;
  match dict_get filename files with
  | Some info => mret info
  | None => raise KeyError
  end.

(** [try: x = m] with [except OSError: return ...]: the value of [m],
    or [None] when [m] raised [OSError] and the handler is to run. *)
Definition unless_OSError {A} (m : M A) : M (option A) := fun st =>
  match m st with
  | (Ok a, st') => (Ok (Some a), st')
  | (Err OSError, st') => (Ok None, st')
  | (Err e, st') => (Err e, st')
  end.

(** [is_processed] *)
Definition is_processed (w : World) (file_path : string) : M bool :=
  let filename := Py.basename file_path in
  files ← get_files ;
  if negb (dict_in filename files) then mret false
  else
    current ← unless_OSError (_get_file_info w file_path) ;
    match current with
    | None => mret false
    | Some current_info =>
        stored_info ← subscript filename ;
        if changed current_info stored_info then mret false else mret true
    end.

(** [is_updated] *)
Definition is_updated (w : World) (file_path : string) : M bool :=
  let filename := Py.basename file_path in
  files ← get_files ;
  if negb (dict_in filename files) then mret false
  else
    current ← unless_OSError (_get_file_info w file_path) ;
    match current with
    | None => mret false
    | Some current_info =>
        stored_info ← subscript filename ;
        if changed current_info stored_info then mret true else mret false
    end.

(** [mark_processed] *)
Definition mark_processed (w : World) (file_path : string) (chunks_count : Z)
    : M unit :=
  let filename := Py.basename file_path in
  file_info ← _get_file_info w file_path ;
  file_hash ← _get_file_hash w file_path ;
  files ← get_files ;
  set_files (dict_set filename
               {| size := Some file_info.1.1;
                  modified_time := Some file_info.1.2;
                  modified_date := Some file_info.2;
                  processed_date := Some (now w);
                  chunks_count := Some chunks_count;
                  content_hash := Some file_hash |} files) ;;
  _save_tracking_data w.

(** [get_processed_info] *)
Definition get_processed_info (file_path : string) : M (option FileRecord) :=
  let filename := Py.basename file_path in
  files ← get_files ;
  mret (dict_get filename files).

(** [clear_tracking] *)
Definition clear_tracking (w : World) : M unit :=
  set_files [] ;; _save_tracking_data w.

(** [remove_file] *)
Definition remove_file (w : World) (file_path : string) : M unit :=
  let filename := Py.basename file_path in
  files ← get_files ;
  if dict_in filename files
  then set_files (dict_del filename files) ;; _save_tracking_data w
  else mret tt.

(** The dictionary returned by [get_stats]. *)
Record Stats := {
  total_files : Z;
  total_chunks : Z;
  stats_tracking_file : string
}.

(** [get_stats] *)
Definition get_stats : M Stats := fun st =>
  (Ok {| total_files := Z.of_nat (length (processed_files st));
         total_chunks :=
           foldr Z.add 0 (map (fun kv => default 0 (chunks_count kv.2))
                              (processed_files st));
         stats_tracking_file := tracking_file st |}, st).

(** Lines 223-234: the scan of [processed_files.items()] in dictionary
    order, left at the first other file with the same hash. *)
Fixpoint scan_items (current_filename current_hash : string) (items : store)
    : option (string * string) :=
  match items with
  | [] => None
  | (filename, info) :: items' =>
      if String.eqb filename current_filename
      then scan_items current_filename current_hash items'
      else if bool_decide (content_hash info = Some current_hash)
           then Some (filename, Py.splitext_ext filename)
           else scan_items current_filename current_hash items'
  end.

(** [find_duplicate_by_hash]: every exception ends in [return None]. *)
Definition find_duplicate_by_hash (w : World) (file_path : string)
    : M (option (string * string)) :=
  try_except
    (current_hash ← _get_file_hash w file_path ;
     let current_filename := Py.basename file_path in
     files ← get_files ;
     mret (scan_items current_filename current_hash files))
    (fun _ => mret None).

End Tracker.

(** * Properties *)

(** ** Facts about the string built-ins *)

Module PyFacts.
Import Py.

#[local] Arguments String.append !s1 s2 : simpl nomatch.

Lemma length_append (a b : string) :
  String.length (a +:+ b) = (String.length a + String.length b)%nat.
Proof. induction a as [|ch a IH]; simpl; [done | by rewrite IH]. Qed.

Lemma len_append (a b : string) : len (a +:+ b) = len a + len b.
Proof. unfold len. rewrite length_append. lia. Qed.

Lemma len_nonneg (s : string) : 0 <= len s.
Proof. unfold len. lia. Qed.

Lemma append_empty_r (a : string) : a +:+ EmptyString = a.
Proof. induction a as [|ch a IH]; simpl; [done | by rewrite IH]. Qed.

Lemma append_assoc (a b c : string) : (a +:+ b) +:+ c = a +:+ b +:+ c.
Proof. induction a as [|ch a IH]; simpl; [done | by rewrite IH]. Qed.

(** What is left of [s] after its first [k] characters. *)
Fixpoint sdrop (k : nat) (s : string) : string :=
  match k, s with
  | O, _ => s
  | S k', String _ s' => sdrop k' s'
  | S _, EmptyString => EmptyString
  end.

Lemma sdrop_length (k : nat) (s : string) :
  String.length (sdrop k s) = (String.length s - k)%nat.
Proof.
  revert s; induction k as [|k IH]; intros [|ch s]; simpl; auto with lia.
Qed.

Lemma prefix_sdrop (p s : string) :
  String.prefix p s = true → s = p +:+ sdrop (String.length p) s.
Proof.
  revert s; induction p as [|a p IH]; intros [|b s]; simpl; try done.
  destruct (ascii_dec a b) as [->|]; [|done].
  intros H. by rewrite <- (IH s H).
Qed.

Lemma split_go_nonempty (sep : string) (k : nat) (cur s : string) :
  split_go sep k cur s ≠ [].
Proof.
  revert k cur; induction s as [|ch s IH]; intros k cur; cbn [split_go]; [done|].
  destruct k; [|apply IH].
  destruct (String.prefix sep (String ch s)); [done | apply IH].
Qed.

(** Passing over [k] characters is dropping them. *)
Lemma split_go_skip (sep : string) (k : nat) (cur s : string) :
  split_go sep k cur s = split_go sep O cur (sdrop k s).
Proof.
  revert k; induction s as [|ch s IH]; intros [|k]; cbn [split_go sdrop]; done.
Qed.

Lemma concat_cons (sep x : string) (l : list string) :
  l ≠ [] → String.concat sep (x :: l) = x +:+ sep +:+ String.concat sep l.
Proof. by destruct l. Qed.

Lemma join_split_go (sep : string) (n : nat) :
  sep ≠ EmptyString →
  ∀ s cur, (String.length s ≤ n)%nat →
    String.concat sep (split_go sep O cur s) = cur +:+ s.
Proof.
  intros Hsep. induction n as [|n IH]; intros [|ch s] cur Hn;
    cbn [split_go String.length] in *;
    try (by cbn; rewrite append_empty_r); try lia.
  destruct (String.prefix sep (String ch s)) eqn:Hp.
  - rewrite concat_cons by apply split_go_nonempty.
    rewrite split_go_skip, IH by (rewrite sdrop_length; lia).
    simpl. f_equal. apply prefix_sdrop in Hp.
    destruct sep as [|a sep]; [done|]. simpl in *.
    rewrite Nat.sub_0_r. by injection Hp as -> <-.
  - rewrite IH by lia. by rewrite append_assoc.
Qed.

(** [sep.join(s.split(sep)) == s] *)
Lemma join_split (s sep : string) :
  sep ≠ EmptyString → String.concat sep (split s sep) = s.
Proof. intros H. unfold split. by rewrite (join_split_go sep (String.length s)). Qed.

Lemma contains_split_go (sep : string) (cur s : string) :
  sep ≠ EmptyString → contains sep s = true →
  (2 ≤ length (split_go sep O cur s))%nat.
Proof.
  intros Hsep. revert cur; induction s as [|ch s IH]; intros cur;
    cbn [split_go contains].
  - destruct sep; [done | simpl; done].
  - destruct (String.prefix sep (String ch s)); cbn [orb].
    + intros _. pose proof (split_go_nonempty sep (String.length sep - 1) "" s).
      destruct (split_go sep (String.length sep - 1) "" s); [done | simpl; lia].
    + apply IH.
Qed.

Lemma concat_length_ge (sep p : string) (parts : list string) :
  p ∈ parts → (2 ≤ length parts)%nat →
  (String.length p + String.length sep ≤ String.length (String.concat sep parts))%nat.
Proof.
  induction parts as [|x parts IH]; [by intros ?%elem_of_nil|].
  intros Hin Hlen. destruct parts as [|y parts]; [simpl in Hlen; lia|].
  rewrite concat_cons by done. rewrite !length_append.
  apply elem_of_cons in Hin as [->|Hin]; [lia|].
  destruct parts as [|z parts].
  - apply list_elem_of_singleton in Hin as ->. simpl. lia.
  - specialize (IH Hin). simpl in IH. simpl. 
    assert (2 ≤ S (S (length parts)))%nat by lia. specialize (IH H). lia.
Qed.

(** A part of a text in which the separator occurs is shorter than the
    text. *)
Lemma split_part_shorter (s sep p : string) :
  sep ≠ EmptyString → contains sep s = true → p ∈ split s sep →
  (String.length p < String.length s)%nat.
Proof.
  intros Hsep Hc Hin.
  pose proof (concat_length_ge sep p _ Hin (contains_split_go sep "" s Hsep Hc)) as H.
  unfold split in H. rewrite (join_split_go sep (String.length s)) in H by done.
  simpl in H. destruct sep; [done|]. simpl in H. lia.
Qed.

End PyFacts.

(** ** TextChunker: termination and the separator that is chosen *)

Module ChunkerFacts.
Import Py PyFacts Chunker.

(** The separator at which the loop of lines 38-68 is left: the first
    one that is empty or occurs in the text. *)
Definition chosen (seps : list string) (text : string) : option string :=
  List.find (fun sep => String.eqb sep EmptyString || contains sep text) seps.

(** None of the structural separators occurs in the text. *)
Definition unbroken (c : TextChunker) (text : string) : Prop :=
  chosen (separators c) text = Some EmptyString.

#[global] Instance unbroken_dec c text : Decision (unbroken c text).
Proof. unfold unbroken. apply _. Defined.

(** A call came back: with a value, or, where [raising] allows it, with
    an exception. *)
Definition came_back {A} (raising : bool) (r : res A) : Prop :=
  match r with
  | Ret _ => True
  | Raise _ => raising = true
  | Unfinished => False
  end.

Lemma came_back_Ret {A} (r : res A) : came_back false r → ∃ a, r = Ret a.
Proof. destruct r; simpl; [eauto | done | done]. Qed.

Section Returns.
Context (c : TextChunker) (raising : bool).
Hypothesis stride : raising = false → chunk_size c - chunk_overlap c ≠ 0.

Lemma char_split_came_back (text : string) :
  came_back raising (char_split c text).
Proof.
  unfold char_split, range0.
  destruct (Z.eqb_spec (chunk_size c - chunk_overlap c) 0) as [E|E]; simpl; [|done].
  destruct raising; [done | by destruct stride].
Qed.

Lemma pack_came_back (f : string → res (list string)) (sep : string)
    (parts : list string) :
  (∀ part, part ∈ parts → came_back raising (f part)) →
  ∀ chunks cur, came_back raising (pack f c sep parts chunks cur).
Proof.
  induction parts as [|part parts IH]; intros Hf chunks cur; simpl; [done|].
  assert (∀ p, p ∈ parts → came_back raising (f p)) as Hf'
    by (intros p Hp; apply Hf; by right).
  destruct (_ <=? _); [by apply IH|].
  destruct (_ <? _); [|by apply IH].
  pose proof (Hf part ltac:(left)) as Hp.
  destruct (f part); simpl in *; [by apply IH | done | done].
Qed.

Lemma scan_came_back (f : string → res (list string)) (text : string)
    (seps : list string) :
  (∀ part, (String.length part < String.length text)%nat →
           came_back raising (f part)) →
  came_back raising (scan f c text seps).
Proof.
  intros Hf. induction seps as [|sep seps IH]; simpl; [done|].
  destruct (String.eqb_spec sep EmptyString) as [E|E];
    [apply char_split_came_back|].
  destruct (contains sep text) eqn:Hc; [|done].
  pose proof (pack_came_back f sep (split text sep)) as Hp.
  specialize (Hp (fun part Hin =>
    Hf part (split_part_shorter text sep part E Hc Hin)) [] EmptyString).
  destruct (pack f c sep (split text sep) [] EmptyString) as [[? ?]| |];
    simpl in *; done.
Qed.

Lemma split_text_fuel_came_back (fuel : nat) (text : string) :
  (String.length text < fuel)%nat →
  came_back raising (split_text_fuel fuel c text).
Proof.
  revert text; induction fuel as [|fuel IH]; intros text Hlen; [lia|].
  simpl. destruct (_ <=? _); [done|].
  pose proof (scan_came_back (split_text_fuel fuel c) text (separators c)) as Hs.
  specialize (Hs (fun part Hp => IH part ltac:(lia))).
  destruct (scan _ c text (separators c)); simpl in *; done.
Qed.
End Returns.

(** [_split_text] always comes back: the budget is never used up. *)
Lemma split_text_finishes (c : TextChunker) (text : string) :
  _split_text c text ≠ Unfinished.
Proof.
  pose proof (split_text_fuel_came_back c true ltac:(done)
                (S (String.length text)) text ltac:(lia)) as H.
  unfold _split_text. by destruct (split_text_fuel _ c text).
Qed.

(** With a non-zero stride [_split_text] returns a list. *)
Lemma split_text_returns (c : TextChunker) (text : string) :
  chunk_size c ≠ chunk_overlap c → ∃ chunks, _split_text c text = Ret chunks.
Proof.
  intros Hne. apply came_back_Ret.
  apply split_text_fuel_came_back; [intros _; lia | lia].
Qed.

Lemma scan_chosen_empty (f : string → res (list string)) (c : TextChunker)
    (text : string) (seps : list string) :
  chosen seps text = Some EmptyString → scan f c text seps = char_split c text.
Proof.
  unfold chosen. induction seps as [|sep seps IH]; simpl; [done|].
  destruct (String.eqb_spec sep EmptyString) as [E|E]; simpl; [done|].
  destruct (contains sep text); [|done].
  intros [= ->]. done.
Qed.

Lemma scan_chosen_separator (f : string → res (list string)) (c : TextChunker)
    (text sep : string) (seps : list string) :
  chosen seps text = Some sep → sep ≠ EmptyString →
  scan f c text seps =
    ('(chunks, current_chunk) ← pack f c sep (split text sep) [] EmptyString ;
     Ret (flush chunks current_chunk)).
Proof.
  unfold chosen. intros H Hsep.
  induction seps as [|s seps IH]; simpl in *; [done|].
  destruct (String.eqb_spec s EmptyString) as [E|E]; simpl in *; [congruence|].
  destruct (contains s text); [by injection H as -> | by apply IH].
Qed.

(** The overlap pass leaves a list of at most one chunk alone. *)
Lemma add_overlap_short (c : TextChunker) (chunks : list string) :
  (length chunks ≤ 1)%nat → add_overlap c chunks = chunks.
Proof.
  intros H. unfold add_overlap.
  destruct (Z.ltb_spec 1 (Z.of_nat (length chunks))); [lia|].
  by rewrite andb_false_r.
Qed.

(** [_split_text] is the overlap pass over the stripped entries of
    [split_pieces]. *)
Lemma split_text_pieces (c : TextChunker) (text : string) :
  _split_text c text =
    (chunks ← split_pieces c text ; Ret (add_overlap c (map render chunks))).
Proof.
  unfold _split_text, split_pieces. simpl.
  destruct (_ <=? _); [|done]. simpl. by rewrite add_overlap_short.
Qed.

End ChunkerFacts.

(** ** TextChunker: construction *)

Module Construction.
Import Py PyFacts Chunker ChunkerFacts.

(** The constructor rejects the configuration. *)
Definition rejected (size overlap : Z) : Prop :=
  ∃ e, init size overlap = Raise e.

Lemma char_split_zero_stride (c : TextChunker) (text : string) :
  chunk_overlap c = chunk_size c → char_split c text = Raise ValueError.
Proof.
  intros E. unfold char_split, range0. by rewrite E, Z.sub_diag.
Qed.

Lemma range_values_backwards (stop step : Z) :
  0 <= stop → step < 0 → range_values 0 stop step = [].
Proof.
  intros Hstop Hstep. unfold range_values.
  destruct (Z.ltb_spec 0 step); [lia|].
  assert ((0 - stop - step - 1) / (- step) <= 0) as Hn.
  { destruct (Z.eq_dec stop 0) as [->|].
    - replace (0 - 0 - step - 1) with (- step - 1) by lia.
      rewrite Z.div_small; lia.
    - apply Z.lt_succ_r. apply Z.div_lt_upper_bound; lia. }
  by replace (Z.to_nat _) with 0%nat by lia.
Qed.

Lemma char_split_negative_stride (c : TextChunker) (text : string) :
  chunk_size c < chunk_overlap c → char_split c text = Ret [].
Proof.
  intros E. unfold char_split, range0.
  destruct (Z.eqb_spec (chunk_size c - chunk_overlap c) 0); [lia|].
  rewrite range_values_backwards; [done | apply len_nonneg | lia].
Qed.

(** C1, as the code has it.  [TextChunker(size, overlap)] returns an
    object for every pair of integers, with the two values stored
    unchanged: a configuration with [overlap >= size] is not rejected at
    construction.  It is met inside [_split_text].  On every text longer
    than [size] in which no structural separator occurs, [overlap = size]
    raises [ValueError] (zero stride of [range]) and [overlap > size]
    returns no chunk at all.  On every text, a text of at most [size]
    characters is returned as the only chunk whatever the configuration,
    and [_split_text] returns a list whenever [overlap] differs from
    [size]. *)
Theorem init_accepts_every_configuration (size overlap : Z) :
  ∃ c, init size overlap = Ret c
    ∧ chunk_size c = size ∧ chunk_overlap c = overlap
    ∧ ∀ text,
        (size < len text → unbroken c text →
           (overlap = size → _split_text c text = Raise ValueError)
           ∧ (size < overlap → _split_text c text = Ret []))
        ∧ (len text <= size → _split_text c text = Ret [text])
        ∧ (overlap ≠ size → ∃ chunks, _split_text c text = Ret chunks).
Proof.
  exists (configured size overlap). repeat split; try done.
  - intros E. unfold _split_text. cbn [split_text_fuel].
    replace (len text <=? chunk_size (configured size overlap)) with false
      by (symmetry; apply Z.leb_gt; done).
    rewrite scan_chosen_empty by done.
    by rewrite char_split_zero_stride.
  - intros E. unfold _split_text. cbn [split_text_fuel].
    replace (len text <=? chunk_size (configured size overlap)) with false
      by (symmetry; apply Z.leb_gt; done).
    rewrite scan_chosen_empty by done.
    rewrite char_split_negative_stride by done.
    cbn. by rewrite add_overlap_short by (simpl; lia).
  - intros Hfit. unfold _split_text. cbn [split_text_fuel].
    by replace (len text <=? chunk_size (configured size overlap)) with true
      by (symmetry; apply Z.leb_le; done).
  - intros Hne. apply split_text_returns. simpl. congruence.
Qed.

(** The theorem at [TextChunker(10, 10)] and [TextChunker(10, 12)] on a
    run of eleven letters, and at [TextChunker(10, 12)] on a text with a
    space, where the long word is dropped. *)
Lemma init_accepts_every_configuration_witness :
  (∃ c, init 10 10 = Ret c ∧ _split_text c "aaaaaaaaaaa" = Raise ValueError)
  ∧ (∃ c, init 10 12 = Ret c ∧ _split_text c "aaaaaaaaaaa" = Ret [])
  ∧ (∃ c, init 10 12 = Ret c ∧ _split_text c "aaaaaaaaaaa bbb" = Ret ["bbb"]).
Proof.
  split; [|split].
  - destruct (init_accepts_every_configuration 10 10) as (c & Hc & _ & _ & H).
    exists c. split; [exact Hc|].
    injection Hc as <-.
    refine (proj1 (proj1 (H "aaaaaaaaaaa") _ _) eq_refl);
      [reflexivity | vm_compute; reflexivity].
  - destruct (init_accepts_every_configuration 10 12) as (c & Hc & _ & _ & H).
    exists c. split; [exact Hc|].
    injection Hc as <-.
    refine (proj2 (proj1 (H "aaaaaaaaaaa") _ _) _);
      [reflexivity | vm_compute; reflexivity | reflexivity].
  - destruct (init_accepts_every_configuration 10 12) as (c & Hc & _ & _ & H).
    exists c. split; [exact Hc|].
    injection Hc as <-.
    destruct (proj2 (proj2 (H "aaaaaaaaaaa bbb")) ltac:(discriminate)) as [chunks Hch].
    rewrite Hch. vm_compute in Hch. injection Hch as <-. reflexivity.
Defined.

(** C1 as stated fails: [TextChunker(10, 10)] is constructed. *)
Lemma init_does_not_reject : ¬ rejected 10 10.
Proof. intros [e H]. discriminate H. Qed.

End Construction.

(** ** TextChunker: the chunks before stripping and stitching *)

Module Splitting.
Import Py PyFacts Chunker ChunkerFacts.

#[local] Arguments String.append !s1 s2 : simpl nomatch.

(** Concatenation of the entries of [chunks] before [strip()]. *)
Definition joined (pieces : list piece) : string :=
  foldr String.append EmptyString (map unstripped pieces).

(** Each part followed by the separator, as the buffer receives them. *)
Definition glued (sep : string) (parts : list string) : string :=
  foldr (fun part acc => part +:+ sep +:+ acc) EmptyString parts.

(** C6 as stated: the un-stripped chunks, before the overlap pass,
    concatenate to the input. *)
Definition lossless (c : TextChunker) (text : string) : Prop :=
  ∃ pieces, split_pieces c text = Ret pieces ∧ joined pieces = text.

Lemma joined_app (a b : list piece) : joined (a ++ b) = joined a +:+ joined b.
Proof.
  unfold joined. induction a as [|p a IH]; simpl; [done|].
  by rewrite IH, append_assoc.
Qed.

Lemma joined_flush (chunks : list piece) (cur : string) :
  joined (flush chunks cur) = joined chunks +:+ cur.
Proof.
  unfold flush. destruct cur as [|ch cur]; simpl.
  - by rewrite append_empty_r.
  - rewrite joined_app. unfold joined at 2. simpl. by rewrite append_empty_r.
Qed.

Lemma glued_join (sep : string) (parts : list string) :
  parts ≠ [] → glued sep parts = String.concat sep parts +:+ sep.
Proof.
  induction parts as [|p parts IH]; [done|]. intros _.
  destruct parts as [|q parts].
  - simpl. by rewrite append_empty_r.
  - rewrite concat_cons by done. cbn [glued foldr] in *.
    rewrite IH by done. by rewrite !append_assoc.
Qed.

(** While no part is longer than [chunk_size], the loop of lines 51-64
    only moves text from the parts to the buffer and from the buffer to
    [chunks]. *)
Lemma pack_joined (f : string → res (list string)) (c : TextChunker)
    (sep : string) (parts : list string) :
  (∀ part, part ∈ parts → len part <= chunk_size c) →
  ∀ chunks cur, ∃ chunks' cur',
    pack f c sep parts chunks cur = Ret (chunks', cur')
    ∧ joined chunks' +:+ cur' = joined chunks +:+ cur +:+ glued sep parts.
Proof.
  induction parts as [|part parts IH]; intros Hsmall chunks cur.
  - exists chunks, cur. simpl. by rewrite append_empty_r.
  - assert (∀ p, p ∈ parts → len p <= chunk_size c) as Hsmall'
      by (intros p Hp; apply Hsmall; by right).
    cbn [pack glued foldr].
    destruct (_ <=? _).
    + destruct (IH Hsmall' chunks (cur +:+ part +:+ sep)) as (ch' & cur' & -> & E).
      exists ch', cur'. split; [done|]. rewrite E. by rewrite !append_assoc.
    + destruct (Z.ltb_spec (chunk_size c) (len part)) as [Hbig|_].
      { specialize (Hsmall part ltac:(left)). lia. }
      destruct (IH Hsmall' (flush chunks cur) (part +:+ sep)) as (ch' & cur' & -> & E).
      exists ch', cur'. split; [done|]. rewrite E, joined_flush.
      by rewrite !append_assoc.
Qed.

(** C6, as the code has it.  A text that fits in one chunk is returned
    as that one chunk, equal to the text, before and after stripping and
    stitching.  A longer text, split at a structural separator with no
    part longer than [chunk_size], gives un-stripped chunks that
    concatenate to the text followed by one more copy of the separator:
    the buffer receives [part + separator] for the last part too. *)
Theorem unstripped_chunks_rejoin (c : TextChunker) (text : string) :
  (len text <= chunk_size c →
     split_pieces c text = Ret [Verbatim text]
     ∧ _split_text c text = Ret [text]
     ∧ lossless c text)
  ∧ (∀ sep, chunk_size c < len text →
       chosen (separators c) text = Some sep → sep ≠ EmptyString →
       (∀ part, part ∈ split text sep → len part <= chunk_size c) →
       ∃ pieces, split_pieces c text = Ret pieces
                 ∧ joined pieces = text +:+ sep).
Proof.
  split.
  - intros Hfit.
    assert (split_pieces c text = Ret [Verbatim text]) as Hp.
    { unfold split_pieces.
      by replace (len text <=? chunk_size c) with true
        by (symmetry; by apply Z.leb_le). }
    split; [done|]. split.
    + rewrite split_text_pieces, Hp. simpl.
      by rewrite add_overlap_short by (simpl; lia).
    + exists [Verbatim text]. split; [done|].
      unfold joined. simpl. by rewrite append_empty_r.
  - intros sep Hlong Hsep Hne Hsmall. unfold split_pieces.
    replace (len text <=? chunk_size c) with false by (symmetry; by apply Z.leb_gt).
    rewrite (scan_chosen_separator _ c text sep) by done.
    destruct (pack_joined (split_text_fuel (String.length text) c) c sep
                (split text sep) Hsmall [] EmptyString) as (ch' & cur' & -> & E).
    exists (flush ch' cur'). split; [done|].
    rewrite joined_flush, E. unfold joined at 1. simpl.
    rewrite glued_join by apply split_go_nonempty.
    by rewrite join_split.
Qed.

Definition abc_paragraphs : string :=
  "A" +:+ newline +:+ newline +:+ "B" +:+ newline +:+ newline +:+ "C".

(** The theorem at [TextChunker(5, 0)] on ["A\n\nB\n\nC"] and on ["A"]. *)
Lemma unstripped_chunks_rejoin_witness :
  (split_pieces (configured 5 0) "A" = Ret [Verbatim "A"]
   ∧ _split_text (configured 5 0) "A" = Ret ["A"]
   ∧ lossless (configured 5 0) "A")
  ∧ ∃ pieces, split_pieces (configured 5 0) abc_paragraphs = Ret pieces
              ∧ joined pieces = abc_paragraphs +:+ newline +:+ newline.
Proof.
  split.
  - apply (proj1 (unstripped_chunks_rejoin (configured 5 0) "A")). vm_compute. discriminate.
  - apply (proj2 (unstripped_chunks_rejoin (configured 5 0) abc_paragraphs)
             (newline +:+ newline)).
    + reflexivity.
    + reflexivity.
    + discriminate.
    + intros part Hin. vm_compute in Hin.
      repeat (apply elem_of_cons in Hin as [->|Hin]; [vm_compute; discriminate|]).
      by apply elem_of_nil in Hin.
Defined.

(** C6 as stated fails on ["A\n\nB\n\nC"] with [TextChunker(5, 0)]: the
    buffers are ["A\n\n"], ["B\n\n"] and ["C\n\n"]. *)
Lemma trailing_separator_added : ¬ lossless (configured 5 0) abc_paragraphs.
Proof.
  intros (pieces & Hp & Hj). vm_compute in Hp. injection Hp as <-.
  vm_compute in Hj. discriminate Hj.
Qed.

(** C7 on [TextChunker(5, 0)] and ["abcde. fg"]: the chunks of the
    outermost call, before the overlap pass, are ["abcde."] and ["fg."];
    the first has six characters, one more than [chunk_size].  The
    buffer tested at line 52 counts the separator, the part tested at
    line 59 does not. *)
Theorem chunk_longer_than_chunk_size :
  split_pieces (configured 5 0) "abcde. fg" = Ret [Buffer "abcde. "; Buffer "fg. "]
  ∧ _split_text (configured 5 0) "abcde. fg" = Ret ["abcde."; "fg."]
  ∧ chunk_size (configured 5 0) < len "abcde.".
Proof. repeat split. Qed.

End Splitting.

(** ** TextChunker: the fixed-stride fallback *)

Module FixedStride.
Import Py PyFacts Chunker ChunkerFacts.

(** [text[8k : 8k + 10]] *)
Definition window (text : string) (k : Z) : string :=
  slice text (8 * k) (8 * k + 10).

(** C9 as stated: the returned chunks are the slices of length 10 that
    start at 0, 8, 16 and 24. *)
Definition returns_the_windows (text : string) : Prop :=
  _split_text (configured 10 2) text = Ret (map (window text) [0; 1; 2; 3]).

Definition alphabet25 : string := "abcdefghijklmnopqrstuvwxy".

(** C9, as the code has it, for every run of 25 characters without a
    structural separator and [TextChunker(10, 2)].  Before the overlap
    pass the chunks are the slices [text[0:10]], [text[8:18]],
    [text[16:25]] and [text[24:25]], of 10, 10, 9 and 1 characters; their
    starts advance by 8 and every index of the text lies in one of
    them.  The overlap pass then runs over them as over any other
    chunks: what is returned is the first slice, and each later slice
    behind the last two characters of the slice before it and a space. *)
Theorem fixed_stride_windows (text : string) :
  String.length text = 25%nat → unbroken (configured 10 2) text →
  let w := window text in
  split_pieces (configured 10 2) text = Ret (map Verbatim [w 0; w 1; w 2; w 3])
  ∧ map len [w 0; w 1; w 2; w 3] = [10; 10; 9; 1]
  ∧ (∀ i, 0 <= i < len text → ∃ k, k ∈ [0; 1; 2; 3] ∧ 8 * k <= i < 8 * k + 10)
  ∧ _split_text (configured 10 2) text =
      Ret [w 0;
           slice_from (w 0) (-2) +:+ " " +:+ w 1;
           slice_from (w 1) (-2) +:+ " " +:+ w 2;
           slice_from (w 2) (-2) +:+ " " +:+ w 3].
Proof.
  intros Hlen Hu w.
  assert (split_pieces (configured 10 2) text = char_split (configured 10 2) text) as Hp.
  { unfold split_pieces, len. rewrite Hlen. cbn [Z.leb Z.of_nat Pos.of_succ_nat].
    change (25 <=? chunk_size (configured 10 2)) with false. cbv iota.
    by apply scan_chosen_empty. }
  assert (len text = 25) as Hl by (unfold len; by rewrite Hlen).
  rewrite split_text_pieces, Hp. subst w. clear Hu Hp.
  split; [|split; [|split]].
  - do 25 (destruct text as [|? text]; [discriminate Hlen|]).
    destruct text; [|discriminate Hlen]. reflexivity.
  - do 25 (destruct text as [|? text]; [discriminate Hlen|]).
    destruct text; [|discriminate Hlen]. reflexivity.
  - intros i Hi. rewrite Hl in Hi.
    exists (i / 8). split.
    + assert (0 <= i / 8 < 4) as Hq
        by (split; [apply Z.div_pos; lia | apply Z.div_lt_upper_bound; lia]).
      rewrite !elem_of_cons. lia.
    + pose proof (Z.div_mod i 8 ltac:(lia)) as Hd.
      pose proof (Z.mod_pos_bound i 8 ltac:(lia)). lia.
  - do 25 (destruct text as [|? text]; [discriminate Hlen|]).
    destruct text; [|discriminate Hlen]. reflexivity.
Qed.

(** The theorem on the first 25 letters of the alphabet. *)
Lemma fixed_stride_windows_witness :
  _split_text (configured 10 2) alphabet25 =
    Ret ["abcdefghij"; "ij ijklmnopqr"; "qr qrstuvwxy"; "xy y"].
Proof.
  exact (proj2 (proj2 (proj2
    (fixed_stride_windows alphabet25 eq_refl ltac:(vm_compute; reflexivity))))).
Defined.

(** C9 as stated fails on the alphabet: the second chunk returned is
    ["ij ijklmnopqr"], not the slice ["ijklmnopqr"]. *)
Lemma stitched_chunks_are_not_windows : ¬ returns_the_windows alphabet25.
Proof. intros H. vm_compute in H. discriminate H. Qed.

End FixedStride.

(** ** TextChunker: the chunk dictionaries *)

Module Records.
Import Py PyFacts Chunker ChunkerFacts.

(** C8 as stated, for one call: record [i] has index [i], every record
    has the length of the result as total, and every key of the caller's
    metadata is in every record. *)
Definition numbered (c : TextChunker) (text : string)
    (metadata : option (gmap string value)) : Prop :=
  ∃ records, chunk_text c text metadata = Ret records
    ∧ ∀ (i : nat) (r : gmap string value), records !! i = Some r →
        r !! "chunk_index" = Some (VInt (Z.of_nat i))
        ∧ r !! "total_chunks" = Some (VInt (Z.of_nat (length records)))
        ∧ (0 <= Z.of_nat i < Z.of_nat (length records))
        ∧ ∀ m k v, metadata = Some m → m !! k = Some v → r !! k = Some v.

(** The caller's metadata does not use the two positional keys. *)
Definition keeps_positions (metadata : option (gmap string value)) : Prop :=
  ∀ m, metadata = Some m →
    m !! "chunk_index" = None ∧ m !! "total_chunks" = None.

Lemma chunk_data_lookup (metadata : option (gmap string value))
    (total i : nat) (chunk k : string) :
  chunk_data metadata total i chunk !! k =
    match metadata with
    | Some m =>
        match m !! k with
        | Some v => Some v
        | None =>
            (<["total_chunks" := VInt (Z.of_nat total)]>
               (<["chunk_index" := VInt (Z.of_nat i)]>
                  (<["text" := VStr chunk]> (∅ : gmap string value)))) !! k
        end
    | None =>
        (<["total_chunks" := VInt (Z.of_nat total)]>
           (<["chunk_index" := VInt (Z.of_nat i)]>
              (<["text" := VStr chunk]> (∅ : gmap string value)))) !! k
    end.
Proof.
  unfold chunk_data, metadata_given. destruct metadata as [m|]; [|done].
  simpl. destruct (decide (m = ∅)) as [->|E].
  - rewrite bool_decide_eq_true_2 by done. simpl. by rewrite lookup_empty.
  - rewrite bool_decide_eq_false_2 by done. simpl.
    destruct (m !! k) as [v|] eqn:Hk.
    + by apply lookup_union_Some_l.
    + by apply lookup_union_r.
Qed.

(** C8, as the code has it.  [chunk_text] raises what [_split_text]
    raises, which happens only for a zero stride.  Otherwise it returns
    one record per chunk of [_split_text]; every key of the metadata is
    in every record with the caller's value; and when the metadata does
    not itself hold [chunk_index] or [total_chunks], record [i] has
    [chunk_index = i] and [total_chunks] the length of the result. *)
Theorem chunk_text_records (c : TextChunker) (text : string)
    (metadata : option (gmap string value)) :
  match _split_text c text with
  | Ret chunks =>
      ∃ records,
        chunk_text c text metadata = Ret records
        ∧ length records = length chunks
        ∧ ∀ (i : nat) (r : gmap string value), records !! i = Some r →
            (∀ m k v, metadata = Some m → m !! k = Some v → r !! k = Some v)
            ∧ (keeps_positions metadata →
                 r !! "chunk_index" = Some (VInt (Z.of_nat i))
                 ∧ r !! "total_chunks" = Some (VInt (Z.of_nat (length records)))
                 ∧ 0 <= Z.of_nat i < Z.of_nat (length records))
  | Raise e =>
      chunk_text c text metadata = Raise e ∧ chunk_size c = chunk_overlap c
  | Unfinished => False
  end.
Proof.
  pose proof (split_text_finishes c text) as Hfin.
  pose proof (split_text_returns c text) as Hret.
  unfold chunk_text.
  destruct (_split_text c text) as [chunks|e|]; [| |done].
  - exists (imap (chunk_data metadata (length chunks)) chunks).
    repeat split; try done.
    + apply length_imap.
    + intros m k v -> Hk. rewrite list_lookup_imap in H.
      destruct (chunks !! i) as [chunk|]; [|done]. injection H as <-.
      by rewrite chunk_data_lookup, Hk.
    + rewrite list_lookup_imap in H.
      destruct (chunks !! i) as [chunk|]; [|done]. injection H as <-.
      rewrite chunk_data_lookup. unfold keeps_positions in H0.
      destruct metadata as [m|]; [destruct (H0 m eq_refl) as [-> _]|]; done.
    + rewrite list_lookup_imap in H.
      destruct (chunks !! i) as [chunk|]; [|done]. injection H as <-.
      rewrite chunk_data_lookup, length_imap. unfold keeps_positions in H0.
      destruct metadata as [m|]; [destruct (H0 m eq_refl) as [_ ->]|]; done.
    + lia.
    + rewrite length_imap. apply lookup_lt_Some in H.
      rewrite length_imap in H. lia.
  - split; [done|].
    destruct (decide (chunk_size c = chunk_overlap c)) as [E|E]; [done|].
    by destruct (Hret E).
Qed.

Definition source_only : gmap string value := {["source" := VStr "a.md"]}.

(** The theorem at [TextChunker(5, 0)], ["abcde. fg"] and
    [{'source': 'a.md'}]: the second record. *)
Lemma chunk_text_records_witness :
  ∃ records r, chunk_text (configured 5 0) "abcde. fg" (Some source_only) = Ret records
    ∧ records !! 1%nat = Some r
    ∧ r !! "source" = Some (VStr "a.md")
    ∧ r !! "chunk_index" = Some (VInt 1)
    ∧ r !! "total_chunks" = Some (VInt (Z.of_nat (length records))).
Proof.
  pose proof (chunk_text_records (configured 5 0) "abcde. fg" (Some source_only)) as H.
  change (_split_text (configured 5 0) "abcde. fg") with (Ret ["abcde."; "fg."]) in H.
  destruct H as (records & Hr & Hlen & H).
  destruct (records !! 1%nat) as [r|] eqn:E.
  - exists records, r. destruct (H 1%nat r E) as [Hm Hp].
    split; [exact Hr|]. split; [exact E|].
    split; [apply (Hm source_only); reflexivity|].
    destruct Hp as (Hi & Ht & _).
    + intros m [= <-]. split; reflexivity.
    + split; [exact Hi | exact Ht].
  - apply lookup_ge_None in E. simpl in Hlen. lia.
Defined.

Definition index_seven : gmap string value := {["chunk_index" := VInt 7]}.

(** C8 as stated fails for [metadata = {'chunk_index': 7}]: [update]
    replaces the index of the only record by 7. *)
Lemma metadata_overrides_index :
  ¬ numbered (configured 1000 200) "hi" (Some index_seven).
Proof.
  intros (records & Hr & H). injection Hr as <-.
  destruct (H 0%nat _ eq_refl) as (Hi & _).
  rewrite chunk_data_lookup in Hi. discriminate Hi.
Qed.

End Records.

(** ** FileTracker *)

Module TrackerFacts.
Import Py Tracker.

Lemma dict_in_get (k : string) (d : store) :
  dict_in k d = true ↔ is_Some (dict_get k d).
Proof.
  induction d as [|[k' v] d IH]; simpl.
  - split; [done | by intros [? ?]].
  - destruct (String.eqb k' k); simpl; [split; eauto | done].
Qed.

Lemma dict_in_false_get (k : string) (d : store) :
  dict_in k d = false → dict_get k d = None.
Proof.
  intros H. destruct (dict_get k d) eqn:E; [|done].
  assert (dict_in k d = true) by (apply dict_in_get; eauto). congruence.
Qed.

(** A world with two readable files, one unreadable path, and a disk
    that can be written. *)
Definition two_files : World :=
  {| stat := fun p =>
       if String.eqb p "in/a.txt" then Some (12, 1700000000)
       else if String.eqb p "in/b.txt" then Some (40, 1700000500)
       else None;
     content_digest := fun p =>
       if String.eqb p "in/a.txt" then Some "5e1f"
       else if String.eqb p "in/b.txt" then Some "5e1f"
       else if String.eqb p "in/c.pdf" then Some "5e1f"
       else None;
     isoformat := fun t =>
       if 253402300800 <=? t then Err ValueError else Ok "2023-11-14T22:13:20";
     now := "2026-01-01T00:00:00";
     can_save := true |}.

Definition record_of (sz mt : Z) (h : string) : FileRecord :=
  {| size := Some sz;
     modified_time := Some mt;
     modified_date := Some "2023-11-14T22:13:20";
     processed_date := Some "2025-12-31T00:00:00";
     chunks_count := Some 3;
     content_hash := Some h |}.

Definition tracking (d : store) : State :=
  {| tracking_file := "data/processed_files.json";
     processed_files := d;
     persisted := Stored d |}.

(** ** Read-only methods *)

(** C10.  [is_processed], [is_updated], [get_processed_info] and
    [get_stats] leave the state as they found it, the dictionary in
    memory and the document on disk alike, for every state, every path
    and every answer of [os.stat]. *)
Theorem queries_leave_state (w : World) (file_path : string) (st : State) :
  (is_processed w file_path st).2 = st
  ∧ (is_updated w file_path st).2 = st
  ∧ (get_processed_info file_path st).2 = st
  ∧ (get_stats st).2 = st.
Proof.
  repeat split.
  - unfold is_processed, unless_OSError, _get_file_info, subscript, get_files,
      raise, mbind, mret, M_bind, M_ret; simpl.
    destruct (dict_in _ _); simpl; [|done].
    destruct (stat w file_path) as [[sz mt]|]; simpl; [|done].
    destruct (isoformat w mt) as [date|[]]; simpl; try done.
    destruct (dict_get _ _); simpl; [|done].
    by destruct (changed _ _).
  - unfold is_updated, unless_OSError, _get_file_info, subscript, get_files,
      raise, mbind, mret, M_bind, M_ret; simpl.
    destruct (dict_in _ _); simpl; [|done].
    destruct (stat w file_path) as [[sz mt]|]; simpl; [|done].
    destruct (isoformat w mt) as [date|[]]; simpl; try done.
    destruct (dict_get _ _); simpl; [|done].
    by destruct (changed _ _).
Qed.

(** ** The three classes of a file *)

(** The file name is not a key of the dictionary. *)
Definition is_new (file_path : string) (st : State) : bool :=
  negb (dict_in (basename file_path) (processed_files st)).

Definition count_true (bs : list bool) : nat := length (filter (fun b => b = true) bs).

(** C4 as stated, for one call: both methods answer, not both with
    [True], and exactly one of new, processed and updated holds. *)
Definition one_class (w : World) (file_path : string) (st : State) : Prop :=
  ∃ p u, (is_processed w file_path st).1 = Ok p
    ∧ (is_updated w file_path st).1 = Ok u
    ∧ p && u = false
    ∧ count_true [is_new file_path st; p; u] = 1%nat.

(** C4, as the code has it.  The two methods never both answer [True].
    A file whose name is not stored is new, and both answer [False].
    For a stored name it depends on [_get_file_info].  When it returns
    ([os.stat] succeeds and the modified time can be formatted) the file
    is in exactly one class, processed or updated, and it is processed
    exactly when the stored size and modified time are the current
    ones.  When it raises [OSError] both answers are [False], so the file
    is in none of the three classes.  When it raises another exception
    (what [datetime.fromtimestamp] raises for a time stamp out of range)
    both methods raise it and give no answer. *)
Theorem classes_of_a_file (w : World) (file_path : string) (st : State) :
  (∀ p u, (is_processed w file_path st).1 = Ok p →
          (is_updated w file_path st).1 = Ok u → p && u = false)
  ∧ match dict_get (basename file_path) (processed_files st),
          (_get_file_info w file_path st).1 with
    | None, _ =>
        is_new file_path st = true
        ∧ (is_processed w file_path st).1 = Ok false
        ∧ (is_updated w file_path st).1 = Ok false
    | Some info, Ok (sz, mt, _) =>
        ∃ p u, (is_processed w file_path st).1 = Ok p
          ∧ (is_updated w file_path st).1 = Ok u
          ∧ count_true [is_new file_path st; p; u] = 1%nat
          ∧ (p = true ↔ size info = Some sz ∧ modified_time info = Some mt)
    | Some info, Err OSError =>
        is_new file_path st = false
        ∧ (is_processed w file_path st).1 = Ok false
        ∧ (is_updated w file_path st).1 = Ok false
    | Some info, Err e =>
        (is_processed w file_path st).1 = Err e
        ∧ (is_updated w file_path st).1 = Err e
    end.
Proof.
  unfold is_processed, is_updated, is_new, unless_OSError, _get_file_info,
    subscript, get_files, raise, mbind, mret, M_bind, M_ret; simpl.
  destruct (dict_in _ _) eqn:Hin; simpl.
  - apply dict_in_get in Hin as [info Hinfo]. rewrite Hinfo.
    destruct (stat w file_path) as [[sz mt]|]; simpl; [|by split; [intros ? ? [= <-] [= <-]|]].
    destruct (isoformat w mt) as [date|e]; simpl.
    + rewrite Hinfo; simpl. unfold changed; simpl.
      destruct (decide (Some sz = size info)) as [Hs|Hs];
        destruct (decide (Some mt = modified_time info)) as [Hm|Hm];
        rewrite ?(bool_decide_eq_true_2 _ Hs), ?(bool_decide_eq_false_2 _ Hs),
          ?(bool_decide_eq_true_2 _ Hm), ?(bool_decide_eq_false_2 _ Hm); simpl;
        (split; [by intros ? ? [= <-] [= <-]|]).
      * exists true, false. repeat split; done.
      * exists false, true. repeat split; try done. intros [_ ?]. congruence.
      * exists false, true. repeat split; try done. intros [? _]. congruence.
      * exists false, true. repeat split; try done. intros [? _]. congruence.
    + destruct e; simpl; (split; [by intros ? ? [=] | done])
        || (split; [by intros ? ? [= <-] [= <-] | done]).
  - apply dict_in_false_get in Hin. rewrite Hin.
    split; [by intros ? ? [= <-] [= <-] | done].
Qed.

(** The first world with one more file, stamped with the first second of
    the year 10000, which [datetime.fromtimestamp] rejects. *)
Definition year_10000 : World :=
  {| stat := fun p =>
       if String.eqb p "in/z.txt" then Some (5, 253402300800) else stat two_files p;
     content_digest := content_digest two_files;
     isoformat := isoformat two_files;
     now := now two_files;
     can_save := true |}.

(** The theorem on a processed file, on a changed one, and on a stored
    file whose time stamp cannot be formatted. *)
Lemma classes_of_a_file_witness :
  let st := tracking [("a.txt", record_of 12 1700000000 "5e1f");
                      ("b.txt", record_of 41 1700000500 "5e1f");
                      ("z.txt", record_of 5 1 "9c9c")] in
  ((is_processed two_files "in/a.txt" st).1 = Ok true
   ∧ (is_updated two_files "in/a.txt" st).1 = Ok false)
  ∧ ((is_processed two_files "in/b.txt" st).1 = Ok false
     ∧ (is_updated two_files "in/b.txt" st).1 = Ok true)
  ∧ ((is_processed year_10000 "in/z.txt" st).1 = Err ValueError
     ∧ (is_updated year_10000 "in/z.txt" st).1 = Err ValueError).
Proof.
  intros st. split; [|split].
  - destruct (proj2 (classes_of_a_file two_files "in/a.txt" st))
      as (p & u & Hp & Hu & _ & _).
    rewrite Hp, Hu. injection Hp as <-. injection Hu as <-. split; reflexivity.
  - destruct (proj2 (classes_of_a_file two_files "in/b.txt" st))
      as (p & u & Hp & Hu & _ & _).
    rewrite Hp, Hu. injection Hp as <-. injection Hu as <-. split; reflexivity.
  - exact (proj2 (classes_of_a_file year_10000 "in/z.txt" st)).
Defined.

(** C4 as stated fails when the name is stored and [os.stat] raises:
    [in/gone.txt] is neither new nor processed nor updated. *)
Lemma stored_but_unreadable :
  ¬ one_class two_files "in/gone.txt"
      (tracking [("gone.txt", record_of 12 1700000000 "5e1f")]).
Proof.
  intros (p & u & Hp & Hu & _ & Hc).
  vm_compute in Hp, Hu. injection Hp as <-. injection Hu as <-.
  vm_compute in Hc. discriminate Hc.
Qed.

(** ** Marking *)

(** C5.  When [os.stat] or the read for the hash raises, [mark_processed]
    raises too and the state, dictionary and document, is the one before
    the call. *)
Theorem mark_processed_failure_keeps_state (w : World) (file_path : string)
    (chunks_count : Z) (st : State) :
  stat w file_path = None ∨ content_digest w file_path = None →
  ∃ e, mark_processed w file_path chunks_count st = (Err e, st).
Proof.
  intros H.
  unfold mark_processed, _get_file_info, _get_file_hash, raise,
    mbind, mret, M_bind, M_ret.
  destruct (stat w file_path) as [[sz mt]|]; [|by exists OSError].
  destruct (isoformat w mt) as [date|e]; [|by exists e].
  destruct H as [H|H]; [done|]. exists OSError. by rewrite H.
Qed.

(** The theorem on a path that cannot be read, next to the record of
    another file. *)
Lemma mark_processed_failure_keeps_state_witness :
  let st := tracking [("a.txt", record_of 12 1700000000 "5e1f")] in
  ∃ e, mark_processed two_files "in/gone.txt" 4 st = (Err e, st).
Proof.
  apply mark_processed_failure_keeps_state. left. reflexivity.
Defined.

(** ** Duplicates *)

(** C2 as stated, for one call: the failure reaches the caller. *)
Definition propagates (w : World) (file_path : string) (st : State) : Prop :=
  ∃ e, (find_duplicate_by_hash w file_path st).1 = Err e.

(** C2, as the code has it.  When the read for the hash raises,
    [find_duplicate_by_hash] catches the exception and returns [None],
    the answer it also gives when there is no duplicate; the state is
    the one before the call. *)
Theorem hash_failure_is_no_duplicate (w : World) (file_path : string) (st : State) :
  content_digest w file_path = None →
  find_duplicate_by_hash w file_path st = (Ok None, st).
Proof.
  intros H. unfold find_duplicate_by_hash, try_except, _get_file_hash, raise,
    mbind, mret, M_bind, M_ret.
  by rewrite H.
Qed.

Lemma hash_failure_is_no_duplicate_witness :
  let st := tracking [("a.txt", record_of 12 1700000000 "5e1f")] in
  find_duplicate_by_hash two_files "in/gone.txt" st = (Ok None, st).
Proof.
  apply hash_failure_is_no_duplicate. reflexivity.
Defined.

(** C2 as stated fails: nothing is raised for the unreadable path. *)
Lemma hash_failure_is_swallowed :
  ¬ propagates two_files "in/gone.txt"
      (tracking [("a.txt", record_of 12 1700000000 "5e1f")]).
Proof. intros [e H]. vm_compute in H. discriminate H. Qed.

(** The records that compete: another name, the same hash. *)
Definition candidate (current_filename current_hash : string)
    (kv : string * FileRecord) : Prop :=
  kv.1 ≠ current_filename ∧ content_hash kv.2 = Some current_hash.

(** C3 as stated, for one call: the name returned is the least of the
    candidate names in the order of [str]. *)
Definition returns_least_name (w : World) (file_path : string) (st : State) : Prop :=
  ∀ h, content_digest w file_path = Some h →
    ∃ name ext, (find_duplicate_by_hash w file_path st).1 = Ok (Some (name, ext))
      ∧ ∀ kv, kv ∈ processed_files st → candidate (basename file_path) h kv →
          String.leb name kv.1 = true.

Lemma scan_items_first (current_filename current_hash : string) (items : store) :
  match scan_items current_filename current_hash items with
  | Some (name, ext) =>
      ∃ before info after,
        items = before ++ (name, info) :: after
        ∧ candidate current_filename current_hash (name, info)
        ∧ ext = splitext_ext name
        ∧ ∀ kv, kv ∈ before → ¬ candidate current_filename current_hash kv
  | None => ∀ kv, kv ∈ items → ¬ candidate current_filename current_hash kv
  end.
Proof.
  induction items as [|[k v] items IH]; simpl.
  - intros kv Hin. by apply elem_of_nil in Hin.
  - destruct (String.eqb_spec k current_filename) as [Ek|Ek].
    + destruct (scan_items _ _ items) as [[name ext]|].
      * destruct IH as (before & info & after & -> & Hc & He & Hb).
        exists ((k, v) :: before), info, after. repeat split; try done; try apply Hc.
        intros kv [->|Hin]%elem_of_cons; [|by apply Hb].
        intros [Hne _]. done.
      * intros kv [->|Hin]%elem_of_cons; [|by apply IH].
        intros [Hne _]. done.
    + case_bool_decide as Eh.
      * exists [], v, items. repeat split; try done.
        intros kv Hin. by apply elem_of_nil in Hin.
      * destruct (scan_items _ _ items) as [[name ext]|].
        -- destruct IH as (before & info & after & -> & Hc & He & Hb).
           exists ((k, v) :: before), info, after. repeat split; try done; try apply Hc.
           intros kv [->|Hin]%elem_of_cons; [|by apply Hb].
           intros [_ Hh]. done.
        -- intros kv [->|Hin]%elem_of_cons; [|by apply IH].
           intros [_ Hh]. done.
Qed.

(** C3, as the code has it.  When the hash can be computed and some
    record competes, [find_duplicate_by_hash] returns the candidate that
    comes first in the insertion order of the dictionary, with the
    extension of its name; no record before it is a candidate.  The
    state is the one before the call. *)
Theorem first_inserted_duplicate (w : World) (file_path h : string) (st : State)
    (kv : string * FileRecord) :
  content_digest w file_path = Some h →
  kv ∈ processed_files st → candidate (basename file_path) h kv →
  ∃ before name info after,
    find_duplicate_by_hash w file_path st = (Ok (Some (name, splitext_ext name)), st)
    ∧ processed_files st = before ++ (name, info) :: after
    ∧ candidate (basename file_path) h (name, info)
    ∧ ∀ kv', kv' ∈ before → ¬ candidate (basename file_path) h kv'.
Proof.
  intros Hh Hin Hc.
  unfold find_duplicate_by_hash, try_except, _get_file_hash, get_files,
    mbind, mret, M_bind, M_ret.
  rewrite Hh.
  pose proof (scan_items_first (basename file_path) h (processed_files st)) as Hs.
  destruct (scan_items _ _ _) as [[name ext]|].
  - destruct Hs as (before & info & after & E & Hcand & -> & Hb).
    exists before, name, info, after. done.
  - by destruct (Hs kv Hin).
Qed.

Definition b_then_a : store :=
  [("b.txt", record_of 40 1700000500 "5e1f");
   ("a.txt", record_of 12 1700000000 "5e1f")].

Definition a_then_b : store :=
  [("a.txt", record_of 12 1700000000 "5e1f");
   ("b.txt", record_of 40 1700000500 "5e1f")].

(** The theorem on a dictionary that received [b.txt] before [a.txt]:
    the duplicate reported for [c.pdf] is [b.txt]; with the two records
    inserted the other way round it is [a.txt]. *)
Lemma first_inserted_duplicate_witness :
  (find_duplicate_by_hash two_files "in/c.pdf" (tracking b_then_a)).1
    = Ok (Some ("b.txt", ".txt"))
  ∧ (find_duplicate_by_hash two_files "in/c.pdf" (tracking a_then_b)).1
    = Ok (Some ("a.txt", ".txt")).
Proof.
  split.
  - destruct (first_inserted_duplicate two_files "in/c.pdf" "5e1f" (tracking b_then_a)
                ("a.txt", record_of 12 1700000000 "5e1f"))
      as (before & name & info & after & -> & E & _ & Hb).
    + reflexivity.
    + right. left.
    + split; [discriminate | reflexivity].
    + destruct before as [|kv before].
      * by injection E as <- _ _.
      * injection E as <- _. destruct (Hb _ ltac:(left)).
        split; [discriminate | reflexivity].
  - destruct (first_inserted_duplicate two_files "in/c.pdf" "5e1f" (tracking a_then_b)
                ("a.txt", record_of 12 1700000000 "5e1f"))
      as (before & name & info & after & -> & E & _ & Hb).
    + reflexivity.
    + left.
    + split; [discriminate | reflexivity].
    + destruct before as [|kv before].
      * by injection E as <- _ _.
      * injection E as <- _. destruct (Hb _ ltac:(left)).
        split; [discriminate | reflexivity].
Defined.

(** C3 as stated fails on the dictionary that received [b.txt] first:
    [b.txt] is returned although [a.txt] competes and sorts before it. *)
Lemma insertion_order_decides : ¬ returns_least_name two_files "in/c.pdf" (tracking b_then_a).
Proof.
  intros H. destruct (H "5e1f" eq_refl) as (name & ext & Hr & Hleast).
  vm_compute in Hr. injection Hr as <- <-.
  specialize (Hleast ("a.txt", record_of 12 1700000000 "5e1f")).
  assert (String.leb "b.txt" "a.txt" = true) as Hle.
  { apply Hleast; [right; left | split; [discriminate | reflexivity]]. }
  vm_compute in Hle. discriminate Hle.
Qed.

End TrackerFacts.


(** * Further properties *)

(** ** FileTracker: the dictionary *)

Module DictFacts.
Import Py Tracker TrackerFacts.

(** The keys of the dictionary, in order. *)
Definition keys (d : store) : list string := map fst d.

Lemma dict_in_keys (k : string) (d : store) : dict_in k d = true ↔ k ∈ keys d.
Proof.
  induction d as [|[k' v] d IH]; simpl.
  - split; [done | by intros ?%elem_of_nil].
  - rewrite elem_of_cons. destruct (String.eqb_spec k' k) as [->|E]; simpl.
    + split; auto.
    + rewrite IH. split; [auto | intros [?|?]; [congruence | done]].
Qed.

Lemma dict_get_set_eq (k : string) (v : FileRecord) (d : store) :
  dict_get k (dict_set k v d) = Some v.
Proof.
  induction d as [|[k' v'] d IH]; simpl.
  - by rewrite String.eqb_refl.
  - destruct (String.eqb k' k) eqn:E; simpl; by rewrite E.
Qed.

Lemma dict_get_set_ne (k k' : string) (v : FileRecord) (d : store) :
  k ≠ k' → dict_get k' (dict_set k v d) = dict_get k' d.
Proof.
  intros Hne. induction d as [|[k0 v0] d IH]; simpl.
  - by apply String.eqb_neq in Hne as ->.
  - destruct (String.eqb_spec k0 k) as [->|E]; simpl.
    + by apply String.eqb_neq in Hne as ->.
    + by rewrite IH.
Qed.

Lemma dict_in_set (k k' : string) (v : FileRecord) (d : store) :
  dict_in k' (dict_set k v d) = (String.eqb k k' || dict_in k' d).
Proof.
  induction d as [|[k0 v0] d IH]; simpl.
  - done.
  - destruct (String.eqb_spec k0 k) as [->|E]; simpl.
    + by destruct (String.eqb k k').
    + rewrite IH. destruct (String.eqb k0 k'), (String.eqb k k'); done.
Qed.

Lemma dict_set_present (k : string) (v : FileRecord) (d : store) :
  dict_in k d = true → keys (dict_set k v d) = keys d.
Proof.
  induction d as [|[k0 v0] d IH]; simpl; [done|].
  destruct (String.eqb_spec k0 k) as [->|E]; simpl; [done|].
  intros H. by rewrite IH.
Qed.

Lemma dict_set_absent (k : string) (v : FileRecord) (d : store) :
  dict_in k d = false → dict_set k v d = d ++ [(k, v)].
Proof.
  induction d as [|[k0 v0] d IH]; simpl; [done|].
  destruct (String.eqb_spec k0 k) as [->|E]; simpl; [done|].
  intros H. by rewrite IH.
Qed.

Lemma dict_set_twice (k : string) (v v' : FileRecord) (d : store) :
  dict_set k v' (dict_set k v d) = dict_set k v' d.
Proof.
  induction d as [|[k0 v0] d IH]; simpl.
  - by rewrite String.eqb_refl.
  - destruct (String.eqb k0 k) eqn:E; simpl; rewrite E; [done | by rewrite IH].
Qed.

Lemma dict_set_NoDup (k : string) (v : FileRecord) (d : store) :
  NoDup (keys d) → NoDup (keys (dict_set k v d)).
Proof.
  intros H. destruct (dict_in k d) eqn:E.
  - by rewrite dict_set_present.
  - rewrite dict_set_absent by done. unfold keys. rewrite map_app. simpl.
    apply NoDup_app. split; [done|]. split.
    + intros x Hx ->%list_elem_of_singleton.
      apply dict_in_keys in Hx. congruence.
    + apply NoDup_singleton.
Qed.

Lemma dict_del_keys_subset (k x : string) (d : store) :
  x ∈ keys (dict_del k d) → x ∈ keys d.
Proof.
  induction d as [|[k0 v0] d IH]; simpl; [done|].
  destruct (String.eqb k0 k); simpl.
  - by right.
  - rewrite !elem_of_cons. intros [?|?]; auto.
Qed.

Lemma dict_del_NoDup (k : string) (d : store) :
  NoDup (keys d) → NoDup (keys (dict_del k d)).
Proof.
  induction d as [|[k0 v0] d IH]; simpl; [done|].
  intros [Hn Hd]%NoDup_cons. destruct (String.eqb k0 k); simpl; [done|].
  apply NoDup_cons. split; [|by apply IH].
  intros Hx. by apply Hn, (dict_del_keys_subset k).
Qed.

Lemma dict_get_del_eq (k : string) (d : store) :
  NoDup (keys d) → dict_get k (dict_del k d) = None.
Proof.
  induction d as [|[k0 v0] d IH]; simpl; [done|].
  intros [Hn Hd]%NoDup_cons. destruct (String.eqb_spec k0 k) as [->|E]; simpl.
  - apply dict_in_false_get. destruct (dict_in k d) eqn:Hin; [|done].
    by apply dict_in_keys in Hin.
  - apply String.eqb_neq in E as ->. by apply IH.
Qed.

Lemma dict_get_del_ne (k k' : string) (d : store) :
  k ≠ k' → dict_get k' (dict_del k d) = dict_get k' d.
Proof.
  intros Hne. induction d as [|[k0 v0] d IH]; simpl; [done|].
  destruct (String.eqb_spec k0 k) as [->|E]; simpl.
  - by apply String.eqb_neq in Hne as ->.
  - by rewrite IH.
Qed.

Lemma dict_in_get_false (k : string) (d : store) :
  dict_get k d = None → dict_in k d = false.
Proof.
  intros H. destruct (dict_in k d) eqn:E; [|done].
  apply dict_in_get in E as [? ?]. congruence.
Qed.

End DictFacts.

(** ** FileTracker: marking, removing, clearing *)

Module TrackerLaws.
Import Py Tracker TrackerFacts DictFacts.

(** The record that [mark_processed] writes (lines 149-156). *)
Definition new_record (w : World) (sz mt : Z) (date h : string) (n : Z)
    : FileRecord :=
  {| size := Some sz;
     modified_time := Some mt;
     modified_date := Some date;
     processed_date := Some (now w);
     chunks_count := Some n;
     content_hash := Some h |}.

(** The document on disk holds the dictionary in memory. *)
Definition synced (st : State) : Prop :=
  persisted st = Stored (processed_files st).

(** No key twice: what a Python dictionary guarantees. *)
Definition well_formed (st : State) : Prop := NoDup (keys (processed_files st)).

Ltac run :=
  unfold is_processed, is_updated, get_processed_info, find_duplicate_by_hash,
    mark_processed, remove_file, clear_tracking, get_stats,
    unless_OSError, try_except, _get_file_info, _get_file_hash,
    _save_tracking_data, subscript, get_files, set_files, raise,
    mbind, mret, M_bind, M_ret in *;
  simpl in *.

(** What a call of [mark_processed] that returns has done. *)
Lemma mark_processed_returned (w : World) (file_path : string) (n : Z)
    (st st' : State) :
  mark_processed w file_path n st = (Ok tt, st') →
  ∃ sz mt date h,
    stat w file_path = Some (sz, mt)
    ∧ isoformat w mt = Ok date
    ∧ content_digest w file_path = Some h
    ∧ can_save w = true
    ∧ st' = {| tracking_file := tracking_file st;
               processed_files :=
                 dict_set (basename file_path) (new_record w sz mt date h n)
                   (processed_files st);
               persisted :=
                 Stored (dict_set (basename file_path) (new_record w sz mt date h n)
                           (processed_files st)) |}.
Proof.
  run. destruct (stat w file_path) as [[sz mt]|]; simpl; [|done].
  destruct (isoformat w mt) as [date|e] eqn:Hd; simpl; [|done].
  destruct (content_digest w file_path) as [h|]; simpl; [|done].
  destruct (can_save w); [|done].
  intros [= <-]. by exists sz, mt, date, h.
Qed.

(** When [os.stat], the formatting of the time, the hash and the write
    all succeed, the call returns. *)
Lemma mark_processed_returns (w : World) (file_path : string) (n : Z) (st : State)
    (sz mt : Z) (date : string) :
  stat w file_path = Some (sz, mt) → isoformat w mt = Ok date →
  is_Some (content_digest w file_path) →
  can_save w = true →
  ∃ st', mark_processed w file_path n st = (Ok tt, st').
Proof.
  intros Hs Hd [h Hh] Hw. run. rewrite Hs. simpl. rewrite Hd. simpl.
  rewrite Hh. simpl. rewrite Hw. eauto.
Qed.

Lemma changed_same (w : World) (sz mt : Z) (h : string) (n : Z) (date date' : string) :
  changed (sz, mt, date) (new_record w sz mt date' h n) = false.
Proof. unfold changed. simpl. by rewrite !bool_decide_eq_true_2. Qed.

Lemma changed_other (w : World) (sz mt sz' mt' : Z) (h : string) (n : Z)
    (date date' : string) :
  changed (sz', mt', date) (new_record w sz mt date' h n)
    = negb (bool_decide ((sz', mt') = (sz, mt))).
Proof.
  unfold changed. simpl.
  destruct (decide (sz' = sz)) as [->|Hs], (decide (mt' = mt)) as [->|Hm].
  - by rewrite !bool_decide_eq_true_2.
  - rewrite (bool_decide_eq_false_2 (Some mt' = Some mt)) by congruence.
    rewrite (bool_decide_eq_false_2 ((sz, mt') = (sz, mt))) by congruence.
    by rewrite orb_true_r.
  - rewrite (bool_decide_eq_false_2 (Some sz' = Some sz)) by congruence.
    by rewrite (bool_decide_eq_false_2 ((sz', mt) = (sz, mt))) by congruence.
  - rewrite (bool_decide_eq_false_2 (Some sz' = Some sz)) by congruence.
    by rewrite (bool_decide_eq_false_2 ((sz', mt') = (sz, mt))) by congruence.
Qed.

(** X1.  After [mark_processed] has returned, and as long as [os.stat]
    gives the size and modified time it gave then, [is_processed] answers
    [True] and [is_updated] answers [False] for that path; neither call
    changes the state.  (Steps 1-2 of [scripts/test_file_update.py].) *)
Theorem marked_file_is_processed (w : World) (file_path : string) (n : Z)
    (st st' : State) :
  mark_processed w file_path n st = (Ok tt, st') →
  is_processed w file_path st' = (Ok true, st')
  ∧ is_updated w file_path st' = (Ok false, st').
Proof.
  intros (sz & mt & date & h & Hs & Hd & Hh & Hw & ->)%mark_processed_returned.
  run. rewrite dict_in_set, String.eqb_refl, Hs. simpl. rewrite Hd. simpl.
  rewrite dict_get_set_eq. simpl. by rewrite changed_same.
Qed.

Lemma marked_file_is_processed_witness :
  ∃ st', mark_processed two_files "in/a.txt" 4 (tracking []) = (Ok tt, st')
    ∧ is_processed two_files "in/a.txt" st' = (Ok true, st')
    ∧ is_updated two_files "in/a.txt" st' = (Ok false, st').
Proof.
  eexists. split; [reflexivity|].
  apply (marked_file_is_processed two_files "in/a.txt" 4 (tracking [])).
  reflexivity.
Defined.

(** X2.  After [mark_processed] has returned in one state of the file
    system, what [is_processed] and [is_updated] answer for that path
    later depends on [_get_file_info] alone; the content is not read
    again, so a rewrite that keeps size and modified time is not seen.
    When [_get_file_info] returns, [is_processed] answers [True] exactly
    when size and modified time are the recorded ones, and [is_updated]
    answers the opposite.  When it raises [OSError] (the file is gone)
    both answer [False].  When it raises another exception both raise
    it.  (Step 3 of [scripts/test_file_update.py].) *)
Theorem change_is_seen_through_stat (w w' : World) (file_path : string) (n : Z)
    (st st' : State) :
  mark_processed w file_path n st = (Ok tt, st') →
  match (_get_file_info w' file_path st').1 with
  | Ok (sz', mt', _) =>
      is_processed w' file_path st'
        = (Ok (bool_decide (Some (sz', mt') = stat w file_path)), st')
      ∧ is_updated w' file_path st'
        = (Ok (negb (bool_decide (Some (sz', mt') = stat w file_path))), st')
  | Err OSError =>
      is_processed w' file_path st' = (Ok false, st')
      ∧ is_updated w' file_path st' = (Ok false, st')
  | Err e =>
      is_processed w' file_path st' = (Err e, st')
      ∧ is_updated w' file_path st' = (Err e, st')
  end.
Proof.
  intros (sz & mt & date & h & Hs & Hd & Hh & Hw & ->)%mark_processed_returned.
  run. rewrite dict_in_set, String.eqb_refl, Hs. simpl.
  destruct (stat w' file_path) as [[sz' mt']|]; simpl; [|done].
  destruct (isoformat w' mt') as [date'|e]; simpl; [|by destruct e].
  rewrite dict_get_set_eq. simpl. rewrite changed_other.
  destruct (decide ((sz', mt') = (sz, mt))) as [E|E].
  - rewrite !bool_decide_eq_true_2 by congruence. done.
  - rewrite (bool_decide_eq_false_2 ((sz', mt') = (sz, mt))) by done.
    rewrite (bool_decide_eq_false_2 (Some (sz', mt') = Some (sz, mt))) by congruence.
    done.
Qed.

(** The first world with [in/a.txt] grown by nine bytes and rewritten
    later, and with [in/b.txt] rewritten to other bytes of the same
    length at the same time stamp. *)
Definition two_files_later : World :=
  {| stat := fun p =>
       if String.eqb p "in/a.txt" then Some (21, 1700000900)
       else if String.eqb p "in/b.txt" then Some (40, 1700000500)
       else None;
     content_digest := fun p =>
       if String.eqb p "in/a.txt" then Some "77aa"
       else if String.eqb p "in/b.txt" then Some "0b0b"
       else None;
     isoformat := fun _ => Ok "2023-11-14T22:28:20";
     now := "2026-01-02T00:00:00";
     can_save := true |}.

Lemma change_is_seen_through_stat_witness :
  ∃ sa sb,
    mark_processed two_files "in/a.txt" 4 (tracking []) = (Ok tt, sa)
    ∧ is_updated two_files_later "in/a.txt" sa = (Ok true, sa)
    ∧ is_updated two_files_later "in/gone.txt" sa = (Ok false, sa)
    ∧ mark_processed two_files "in/b.txt" 4 (tracking []) = (Ok tt, sb)
    ∧ is_processed two_files_later "in/b.txt" sb = (Ok true, sb).
Proof.
  eexists. eexists. split; [reflexivity|].
  split; [|split; [reflexivity|split; [reflexivity|]]].
  - exact (proj2 (change_is_seen_through_stat two_files two_files_later "in/a.txt" 4
                    (tracking []) _ eq_refl)).
  - exact (proj1 (change_is_seen_through_stat two_files two_files_later "in/b.txt" 4
                    (tracking []) _ eq_refl)).
Defined.

(** X3.  After [mark_processed] has returned, [get_processed_info] gives
    for that path a record with the size and modified time of [os.stat],
    the digest of the content, the chunk count passed in and the time of
    the call; for a path with another file name it gives what it gave
    before, and so do [is_processed] and [is_updated]. *)
Theorem marked_record_is_stored (w : World) (file_path : string) (n : Z)
    (st st' : State) :
  mark_processed w file_path n st = (Ok tt, st') →
  (∃ sz mt date h,
     stat w file_path = Some (sz, mt) ∧ isoformat w mt = Ok date
     ∧ content_digest w file_path = Some h
     ∧ get_processed_info file_path st'
         = (Ok (Some {| size := Some sz;
                        modified_time := Some mt;
                        modified_date := Some date;
                        processed_date := Some (now w);
                        chunks_count := Some n;
                        content_hash := Some h |}), st'))
  ∧ ∀ w' other, basename other ≠ basename file_path →
      (get_processed_info other st').1 = (get_processed_info other st).1
      ∧ (is_processed w' other st').1 = (is_processed w' other st).1
      ∧ (is_updated w' other st').1 = (is_updated w' other st).1.
Proof.
  intros (sz & mt & date & h & Hs & Hd & Hh & Hw & ->)%mark_processed_returned. split.
  - exists sz, mt, date, h. run. by rewrite dict_get_set_eq.
  - intros w' other Hne. run.
    rewrite dict_in_set, dict_get_set_ne by done.
    replace (String.eqb (basename file_path) (basename other)) with false
      by (symmetry; by apply String.eqb_neq).
    simpl. repeat split.
    + destruct (dict_in _ _); simpl; [|done].
      destruct (stat w' other) as [[? ?]|]; simpl; [|done].
      destruct (isoformat w' _) as [?|[]]; simpl; try done.
      rewrite dict_get_set_ne by done.
      destruct (dict_get _ _); simpl; [|done]. by destruct (changed _ _).
    + destruct (dict_in _ _); simpl; [|done].
      destruct (stat w' other) as [[? ?]|]; simpl; [|done].
      destruct (isoformat w' _) as [?|[]]; simpl; try done.
      rewrite dict_get_set_ne by done.
      destruct (dict_get _ _); simpl; [|done]. by destruct (changed _ _).
Qed.

Lemma marked_record_is_stored_witness :
  ∃ st', mark_processed two_files "in/b.txt" 7 (tracking a_then_b) = (Ok tt, st')
    ∧ (get_processed_info "x/b.txt" st').1
        = Ok (Some (new_record two_files 40 1700000500 "2023-11-14T22:13:20" "5e1f" 7))
    ∧ (get_processed_info "in/a.txt" st').1
        = Ok (Some (record_of 12 1700000000 "5e1f")).
Proof.
  eexists. split; [reflexivity|].
  destruct (marked_record_is_stored two_files "in/b.txt" 7 (tracking a_then_b) _ eq_refl)
    as [(sz & mt & date & h & Hs & Hd & Hh & Hg) Ho].
  injection Hs as <- <-. injection Hd as <-. injection Hh as <-.
  split.
  - change (basename "x/b.txt") with (basename "in/b.txt").
    exact (f_equal fst Hg).
  - rewrite (proj1 (Ho two_files "in/a.txt" ltac:(discriminate))). reflexivity.
Defined.

(** X4.  [mark_processed] keeps the dictionary a dictionary and keeps its
    order: the keys stay without repetition; a file name that was a key
    keeps its place, and a new file name becomes the last key. *)
Theorem mark_processed_keeps_order (w : World) (file_path : string) (n : Z)
    (st st' : State) :
  mark_processed w file_path n st = (Ok tt, st') →
  (well_formed st → well_formed st')
  ∧ keys (processed_files st') =
      (if dict_in (basename file_path) (processed_files st)
       then keys (processed_files st)
       else keys (processed_files st) ++ [basename file_path]).
Proof.
  intros (sz & mt & date & h & Hs & Hd & Hh & Hw & ->)%mark_processed_returned.
  unfold well_formed. simpl. split; [apply dict_set_NoDup|].
  destruct (dict_in _ _) eqn:E.
  - by apply dict_set_present.
  - rewrite dict_set_absent by done. unfold keys. by rewrite map_app.
Qed.

Lemma mark_processed_keeps_order_witness :
  ∃ st1 st2,
    mark_processed two_files "in/a.txt" 9 (tracking b_then_a) = (Ok tt, st1)
    ∧ keys (processed_files st1) = ["b.txt"; "a.txt"]
    ∧ mark_processed two_files "in/b.txt" 1 (tracking [("a.txt", record_of 1 2 "00")])
        = (Ok tt, st2)
    ∧ keys (processed_files st2) = ["a.txt"; "b.txt"] ∧ well_formed st2.
Proof.
  eexists. eexists. split; [reflexivity|]. split; [|split; [reflexivity|]].
  - exact (proj2 (mark_processed_keeps_order two_files "in/a.txt" 9 (tracking b_then_a)
                    _ eq_refl)).
  - destruct (mark_processed_keeps_order two_files "in/b.txt" 1
                (tracking [("a.txt", record_of 1 2 "00")]) _ eq_refl) as [Hwf Hk].
    split; [exact Hk|]. apply Hwf.
    unfold well_formed. simpl. apply NoDup_singleton.
Defined.

(** X5.  The record is replaced as a whole: marking a path again, with
    any chunk count and in any state of the file system, ends in the
    state that this second call alone would have produced.  In
    particular a repeated call with nothing changed changes nothing. *)
Theorem last_mark_wins (w w' : World) (file_path : string) (n n' : Z)
    (st st1 st2 : State) :
  mark_processed w file_path n st = (Ok tt, st1) →
  mark_processed w' file_path n' st = (Ok tt, st2) →
  mark_processed w' file_path n' st1 = (Ok tt, st2).
Proof.
  intros (sz & mt & date & h & Hs & Hd & Hh & Hw & ->)%mark_processed_returned
         (sz' & mt' & date' & h' & Hs' & Hd' & Hh' & Hw' & ->)%mark_processed_returned.
  run. rewrite Hs'. simpl. rewrite Hd'. simpl. rewrite Hh'. simpl. rewrite Hw'.
  by rewrite dict_set_twice.
Qed.

Lemma last_mark_wins_witness :
  ∃ st1, mark_processed two_files "in/a.txt" 4 (tracking b_then_a) = (Ok tt, st1)
         ∧ mark_processed two_files "in/a.txt" 4 st1 = (Ok tt, st1).
Proof.
  eexists. split; [reflexivity|].
  apply (last_mark_wins two_files two_files "in/a.txt" 4 4 (tracking b_then_a));
    reflexivity.
Defined.

(** X6.  Every mutating method that returns leaves the tracking file
    equal to the dictionary in memory: a tracker constructed afterwards
    from that file is in the state this one is in.  For [remove_file],
    which does not write when the name is not tracked, this needs the
    two to agree before the call. *)
Theorem mutation_is_persisted (w : World) (file_path : string) (n : Z)
    (st st' : State) :
  (mark_processed w file_path n st = (Ok tt, st') →
     init (tracking_file st') (persisted st') = st')
  ∧ (clear_tracking w st = (Ok tt, st') →
     init (tracking_file st') (persisted st') = st')
  ∧ (remove_file w file_path st = (Ok tt, st') → synced st →
     init (tracking_file st') (persisted st') = st').
Proof.
  repeat split.
  - by intros (sz & mt & date & h & Hs & Hd & Hh & Hw & ->)%mark_processed_returned.
  - run. destruct (can_save w); [|done]. by intros [= <-].
  - run. unfold synced. destruct (dict_in _ _); simpl.
    + destruct (can_save w); [|done]. by intros [= <-].
    + intros [= <-] Hsync. destruct st as [f d p]. simpl in *. by subst p.
Qed.

Lemma mutation_is_persisted_witness :
  ∃ st1 st2 st3,
    mark_processed two_files "in/a.txt" 4 (tracking []) = (Ok tt, st1)
    ∧ init (tracking_file st1) (persisted st1) = st1
    ∧ clear_tracking two_files (tracking a_then_b) = (Ok tt, st2)
    ∧ init (tracking_file st2) (persisted st2) = st2
    ∧ remove_file two_files "in/a.txt" (tracking a_then_b) = (Ok tt, st3)
    ∧ init (tracking_file st3) (persisted st3) = st3.
Proof.
  do 3 eexists.
  split; [reflexivity|]. split.
  { exact (proj1 (mutation_is_persisted two_files "in/a.txt" 4 (tracking []) _) eq_refl). }
  split; [reflexivity|]. split.
  { exact (proj1 (proj2 (mutation_is_persisted two_files "" 0 (tracking a_then_b) _))
             eq_refl). }
  split; [reflexivity|].
  exact (proj2 (proj2 (mutation_is_persisted two_files "in/a.txt" 0 (tracking a_then_b) _))
           eq_refl eq_refl).
Defined.

(** X7.  After [remove_file] has returned, the file is new again:
    [get_processed_info] gives [None] and both [is_processed] and
    [is_updated] answer [False], whatever [os.stat] says; the records of
    the other file names are as before.  A name that is not tracked is
    left alone without any write, so the call returns even when the
    tracking file cannot be written. *)
Theorem removed_file_is_new (w w' : World) (file_path : string) (st st' : State) :
  well_formed st →
  remove_file w file_path st = (Ok tt, st') →
  get_processed_info file_path st' = (Ok None, st')
  ∧ is_processed w' file_path st' = (Ok false, st')
  ∧ is_updated w' file_path st' = (Ok false, st')
  ∧ (∀ other, basename other ≠ basename file_path →
       (get_processed_info other st').1 = (get_processed_info other st).1)
  ∧ (dict_in (basename file_path) (processed_files st) = false → st' = st).
Proof.
  intros Hwf. unfold well_formed in Hwf. run.
  destruct (dict_in _ _) eqn:Hin; simpl.
  - destruct (can_save w); [|done]. intros [= <-]. simpl.
    pose proof (dict_get_del_eq (basename file_path) _ Hwf) as Hg.
    rewrite Hg, (dict_in_get_false _ _ Hg). simpl. repeat split; try done.
    intros other Hne. by rewrite dict_get_del_ne.
  - intros [= <-]. rewrite Hin, (dict_in_false_get _ _ Hin). done.
Qed.

(** A world in which nothing can be written. *)
Definition read_only : World :=
  {| stat := stat two_files;
     content_digest := content_digest two_files;
     isoformat := isoformat two_files;
     now := now two_files;
     can_save := false |}.

Lemma removed_file_is_new_witness :
  ∃ st', remove_file two_files "in/a.txt" (tracking a_then_b) = (Ok tt, st')
    ∧ is_processed two_files "in/a.txt" st' = (Ok false, st')
    ∧ (get_processed_info "in/b.txt" st').1 = Ok (Some (record_of 40 1700000500 "5e1f"))
    ∧ remove_file read_only "in/c.pdf" (tracking a_then_b) = (Ok tt, tracking a_then_b).
Proof.
  assert (well_formed (tracking a_then_b)) as Hwf.
  { unfold well_formed. simpl. apply NoDup_cons. split.
    - intros ?%list_elem_of_singleton. discriminate.
    - apply NoDup_singleton. }
  eexists. split; [reflexivity|].
  destruct (removed_file_is_new two_files two_files "in/a.txt" (tracking a_then_b) _
              Hwf eq_refl) as (_ & Hp & _ & Ho & _).
  split; [exact Hp|]. split.
  - rewrite (Ho "in/b.txt" ltac:(discriminate)). reflexivity.
  - destruct (removed_file_is_new read_only two_files "in/c.pdf" (tracking a_then_b)
                (tracking a_then_b) Hwf eq_refl) as (_ & _ & _ & _ & _).
    reflexivity.
Defined.

(** Sum of the chunk counts, a missing count being 0 (lines 199-200). *)
Definition chunk_sum (d : store) : Z :=
  foldr Z.add 0 (map (fun kv => default 0 (chunks_count kv.2)) d).

Lemma chunk_sum_set (k : string) (v : FileRecord) (d : store) :
  chunk_sum (dict_set k v d) =
    chunk_sum d
    - default 0 (old ← dict_get k d ; chunks_count old)
    + default 0 (chunks_count v).
Proof.
  unfold chunk_sum. induction d as [|[k0 v0] d IH]; simpl; [lia|].
  destruct (String.eqb k0 k); simpl; [|rewrite IH]; lia.
Qed.

Lemma length_dict_set (k : string) (v : FileRecord) (d : store) :
  length (dict_set k v d) = (if dict_in k d then length d else S (length d)).
Proof.
  induction d as [|[k0 v0] d IH]; simpl; [done|].
  destruct (String.eqb k0 k); simpl; [done|]. rewrite IH.
  by destruct (dict_in k d).
Qed.

(** X8.  [get_stats] follows [mark_processed].  Marking a file name that
    is not tracked adds one file and the chunk count passed in; marking a
    tracked one keeps the number of files and exchanges the old chunk
    count (0 when the old record has none) for the new one. *)
Theorem stats_follow_mark (w : World) (file_path : string) (n : Z)
    (st st' : State) :
  mark_processed w file_path n st = (Ok tt, st') →
  ∃ s s', get_stats st = (Ok s, st) ∧ get_stats st' = (Ok s', st')
    ∧ match dict_get (basename file_path) (processed_files st) with
      | None =>
          total_files s' = total_files s + 1
          ∧ total_chunks s' = total_chunks s + n
      | Some old =>
          total_files s' = total_files s
          ∧ total_chunks s' = total_chunks s - default 0 (chunks_count old) + n
      end.
Proof.
  intros (sz & mt & date & h & Hs & Hd & Hh & Hw & ->)%mark_processed_returned.
  eexists. eexists. split; [reflexivity|]. split; [reflexivity|]. simpl.
  fold (chunk_sum (processed_files st)).
  fold (chunk_sum (dict_set (basename file_path) (new_record w sz mt date h n)
                     (processed_files st))).
  rewrite chunk_sum_set, length_dict_set. simpl.
  destruct (dict_get _ _) as [old|] eqn:E; simpl.
  - assert (dict_in (basename file_path) (processed_files st) = true) as ->
      by (apply dict_in_get; eauto).
    split; lia.
  - rewrite (dict_in_get_false _ _ E). split; lia.
Qed.

Lemma stats_follow_mark_witness :
  ∃ st' s', mark_processed two_files "in/a.txt" 10 (tracking a_then_b) = (Ok tt, st')
    ∧ get_stats st' = (Ok s', st')
    ∧ total_files s' = 2 ∧ total_chunks s' = 13.
Proof.
  destruct (stats_follow_mark two_files "in/a.txt" 10 (tracking a_then_b) _ eq_refl)
    as (s & s' & Hs & Hs' & Hf & Hc).
  eexists. exists s'. split; [reflexivity|]. split; [exact Hs'|].
  injection Hs as <-. simpl in Hf, Hc. split; [exact Hf | exact Hc].
Defined.

(** X9.  After [clear_tracking] has returned nothing is tracked: the
    statistics are zero, every path is new ([is_processed] and
    [is_updated] answer [False], [get_processed_info] gives [None]) and
    no path has a duplicate. *)
Theorem cleared_tracker_is_empty (w w' : World) (file_path : string) (st st' : State) :
  clear_tracking w st = (Ok tt, st') →
  (∃ s, get_stats st' = (Ok s, st') ∧ total_files s = 0 ∧ total_chunks s = 0)
  ∧ is_processed w' file_path st' = (Ok false, st')
  ∧ is_updated w' file_path st' = (Ok false, st')
  ∧ get_processed_info file_path st' = (Ok None, st')
  ∧ find_duplicate_by_hash w' file_path st' = (Ok None, st').
Proof.
  run. destruct (can_save w); [|done]. intros [= <-]. simpl.
  repeat split; try done.
  - eexists. by split.
  - by destruct (content_digest w' file_path).
Qed.

Lemma cleared_tracker_is_empty_witness :
  ∃ st', clear_tracking two_files (tracking a_then_b) = (Ok tt, st')
    ∧ is_processed two_files "in/a.txt" st' = (Ok false, st')
    ∧ find_duplicate_by_hash two_files "in/c.pdf" st' = (Ok None, st').
Proof.
  eexists. split; [reflexivity|].
  destruct (cleared_tracker_is_empty two_files two_files "in/a.txt" (tracking a_then_b) _
              eq_refl) as (_ & Hp & _).
  split; [exact Hp|].
  exact (proj2 (proj2 (proj2 (proj2
    (cleared_tracker_is_empty two_files two_files "in/c.pdf" (tracking a_then_b) _
       eq_refl))))).
Defined.

(** The answer of [find_duplicate_by_hash] when the hash is known. *)
Lemma find_duplicate_by_hash_spec (w : World) (file_path h : string) (st : State) :
  content_digest w file_path = Some h →
  ∃ r, find_duplicate_by_hash w file_path st = (Ok r, st)
    ∧ match r with
      | Some (name, ext) =>
          name ≠ basename file_path
          ∧ ext = splitext_ext name
          ∧ ∃ info, (name, info) ∈ processed_files st ∧ content_hash info = Some h
      | None =>
          ∀ name info, (name, info) ∈ processed_files st →
            name ≠ basename file_path → content_hash info ≠ Some h
      end.
Proof.
  intros Hh. run. rewrite Hh. simpl.
  eexists. split; [reflexivity|].
  pose proof (scan_items_first (basename file_path) h (processed_files st)) as Hs.
  destruct (scan_items _ _ _) as [[name ext]|].
  - destruct Hs as (before & info & after & E & [Hn Hc] & -> & _).
    repeat split; try done. exists info. split; [|done].
    rewrite E. apply elem_of_app. right. left.
  - intros name info Hin Hne Hc. apply (Hs _ Hin). by split.
Qed.

(** X10.  When the hash of the path can be computed,
    [find_duplicate_by_hash] answers without changing the state.  A name
    it returns is never the file name of the path itself; it is a key of
    the dictionary whose record holds that hash, and it comes with the
    extension of that name.  It returns [None] only when no record under
    another name holds the hash. *)
Theorem duplicate_answer (w : World) (file_path h : string) (st : State) :
  content_digest w file_path = Some h →
  ∃ r, find_duplicate_by_hash w file_path st = (Ok r, st)
    ∧ match r with
      | Some (name, ext) =>
          name ≠ basename file_path
          ∧ ext = splitext_ext name
          ∧ ∃ info, (name, info) ∈ processed_files st ∧ content_hash info = Some h
      | None =>
          ∀ name info, (name, info) ∈ processed_files st →
            name ≠ basename file_path → content_hash info ≠ Some h
      end.
Proof. apply find_duplicate_by_hash_spec. Qed.

Lemma duplicate_answer_witness :
  find_duplicate_by_hash two_files "in/a.txt" (tracking a_then_b)
    = (Ok (Some ("b.txt", ".txt")), tracking a_then_b)
  ∧ find_duplicate_by_hash two_files "in/a.txt"
      (tracking [("a.txt", record_of 12 1700000000 "5e1f")])
    = (Ok None, tracking [("a.txt", record_of 12 1700000000 "5e1f")]).
Proof.
  split.
  - destruct (duplicate_answer two_files "in/a.txt" "5e1f" (tracking a_then_b) eq_refl)
      as (r & Hr & _).
    rewrite Hr. injection Hr as <-. reflexivity.
  - destruct (duplicate_answer two_files "in/a.txt" "5e1f"
                (tracking [("a.txt", record_of 12 1700000000 "5e1f")]) eq_refl)
      as (r & Hr & _).
    rewrite Hr. injection Hr as <-. reflexivity.
Defined.

Lemma elem_of_dict_set (k : string) (v : FileRecord) (d : store) :
  (k, v) ∈ dict_set k v d.
Proof.
  induction d as [|[k0 v0] d IH]; simpl; [left|].
  destruct (String.eqb_spec k0 k) as [->|E]; [left | by right].
Qed.

Lemma elem_of_dict_set_inv (k : string) (v : FileRecord) (d : store)
    (kv : string * FileRecord) :
  kv ∈ dict_set k v d → kv = (k, v) ∨ kv ∈ d.
Proof.
  induction d as [|[k0 v0] d IH]; simpl.
  - intros ->%list_elem_of_singleton. by left.
  - destruct (String.eqb_spec k0 k) as [->|E].
    + intros [->|H]%elem_of_cons; [by left | right; by right].
    + intros [->|H]%elem_of_cons; [right; left|].
      destruct (IH H) as [?|?]; [by left | right; by right].
Qed.

(** X11.  Duplicates are found across file names.  After
    [mark_processed] has returned for one path, a path with another file
    name whose content has the same digest is reported as a duplicate.
    If no record under another name held that digest before, the file
    reported is the one just marked. *)
Theorem marked_content_is_recognised (w w' : World) (marked other h : string)
    (n : Z) (st st' : State) :
  mark_processed w marked n st = (Ok tt, st') →
  content_digest w marked = Some h →
  content_digest w' other = Some h →
  basename other ≠ basename marked →
  (∃ name ext, find_duplicate_by_hash w' other st' = (Ok (Some (name, ext)), st'))
  ∧ ((∀ name info, (name, info) ∈ processed_files st →
        name ≠ basename other → content_hash info ≠ Some h) →
     find_duplicate_by_hash w' other st'
       = (Ok (Some (basename marked, splitext_ext (basename marked))), st')).
Proof.
  intros Hm Hh Hh' Hne.
  destruct (find_duplicate_by_hash_spec w' other h st' Hh') as (r & Hr & Hspec).
  apply mark_processed_returned in Hm as (sz & mt & date & h0 & Hs & Hd & Hh0 & Hw & ->).
  assert (h0 = h) as -> by congruence.
  rewrite Hr. simpl in Hspec. destruct r as [[name ext]|].
  - split; [eauto|]. intros Hnone.
    destruct Hspec as (Hn & -> & info & Hin & Hc).
    apply elem_of_dict_set_inv in Hin as [[= -> ->]|Hin]; [done|].
    by destruct (Hnone _ _ Hin Hn).
  - destruct (Hspec (basename marked) (new_record w sz mt date h n)); try done.
    apply elem_of_dict_set.
Qed.

Lemma marked_content_is_recognised_witness :
  ∃ st', mark_processed two_files "in/a.txt" 4 (tracking []) = (Ok tt, st')
    ∧ find_duplicate_by_hash two_files "in/c.pdf" st'
        = (Ok (Some ("a.txt", ".txt")), st').
Proof.
  eexists. split; [reflexivity|].
  refine (proj2 (marked_content_is_recognised two_files two_files "in/a.txt" "in/c.pdf"
                   "5e1f" 4 (tracking []) _ eq_refl eq_refl eq_refl _) _).
  - discriminate.
  - intros name info Hin. by apply elem_of_nil in Hin.
Defined.

(** X12.  The record is assigned before the file is written (line 149
    before line 158).  When [os.stat], the formatting of the modified
    time and the hash succeed but the tracking file cannot be written,
    [mark_processed] raises, and the tracker in memory nevertheless
    treats the file as processed from then on. *)
Theorem unsaved_mark_is_remembered (w : World) (file_path : string) (n : Z)
    (st : State) (sz mt : Z) (date : string) :
  stat w file_path = Some (sz, mt) → isoformat w mt = Ok date →
  is_Some (content_digest w file_path) →
  can_save w = false →
  ∃ st', mark_processed w file_path n st = (Err OSError, st')
    ∧ is_processed w file_path st' = (Ok true, st').
Proof.
  intros Hs Hd [h Hh] Hw. run. rewrite Hs. simpl. rewrite Hd. simpl.
  rewrite Hh. simpl. rewrite Hw. eexists. split; [reflexivity|]. simpl.
  rewrite dict_in_set, String.eqb_refl. simpl.
  rewrite dict_get_set_eq. simpl. unfold changed. simpl.
  by rewrite !bool_decide_eq_true_2.
Qed.

Lemma unsaved_mark_is_remembered_witness :
  ∃ st', mark_processed read_only "in/a.txt" 4 (tracking []) = (Err OSError, st')
    ∧ is_processed read_only "in/a.txt" st' = (Ok true, st').
Proof.
  apply (unsaved_mark_is_remembered read_only "in/a.txt" 4 (tracking [])
           12 1700000000 "2023-11-14T22:13:20");
    [reflexivity | reflexivity | by eexists | reflexivity].
Defined.

End TrackerLaws.

(** ** TextChunker: what [_split_text] returns and raises *)

Module ChunkerLaws.
Import Py PyFacts Chunker ChunkerFacts.

#[local] Arguments String.append !s1 s2 : simpl nomatch.

Lemma length_substring (s : string) (n m : nat) :
  String.length (String.substring n m s) = Nat.min m (String.length s - n).
Proof.
  revert n m; induction s as [|ch s IH]; intros [|n] [|m]; simpl; try done;
    rewrite IH; simpl; by rewrite ?Nat.sub_0_r.
Qed.

Lemma len_slice (s : string) (a b : Z) :
  0 <= a → 0 <= b →
  len (slice s a b) = Z.max 0 (Z.min b (len s) - Z.min a (len s)).
Proof.
  intros Ha Hb. unfold slice, clamp, len.
  destruct (Z.ltb_spec a 0); [lia|]. destruct (Z.ltb_spec b 0); [lia|].
  rewrite length_substring. lia.
Qed.

Lemma len_slice_from_end (s : string) (k : Z) :
  0 < k → k < len s → len (slice_from s (- k)) = k.
Proof.
  intros Hk Hl. unfold slice_from, clamp, len in *.
  destruct (Z.ltb_spec (- k) 0); [|lia].
  rewrite length_substring. lia.
Qed.

Lemma truthy_len (s : string) : truthy s = true ↔ 0 < len s.
Proof. destruct s; unfold len; simpl; split; try done; lia. Qed.

(** A call came back with a list, or raised [ValueError] on a zero
    stride. *)
Definition value_or_zero_stride {A} (c : TextChunker) (r : res A) : Prop :=
  match r with
  | Ret _ => True
  | Raise e => e = ValueError ∧ chunk_size c = chunk_overlap c
  | Unfinished => False
  end.

Lemma char_split_value_or_zero_stride (c : TextChunker) (text : string) :
  value_or_zero_stride c (char_split c text).
Proof.
  unfold char_split, range0.
  destruct (Z.eqb_spec (chunk_size c - chunk_overlap c) 0) as [E|E]; simpl; [|done].
  split; [done | lia].
Qed.

Lemma pack_value_or_zero_stride (f : string → res (list string)) (c : TextChunker)
    (sep : string) (parts : list string) :
  (∀ part, part ∈ parts → value_or_zero_stride c (f part)) →
  ∀ chunks cur, value_or_zero_stride c (pack f c sep parts chunks cur).
Proof.
  induction parts as [|part parts IH]; intros Hf chunks cur; simpl; [done|].
  assert (∀ p, p ∈ parts → value_or_zero_stride c (f p)) as Hf'
    by (intros p Hp; apply Hf; by right).
  destruct (_ <=? _); [by apply IH|].
  destruct (_ <? _); [|by apply IH].
  pose proof (Hf part ltac:(left)) as Hp.
  destruct (f part); simpl in *; [by apply IH | done | done].
Qed.

Lemma scan_value_or_zero_stride (f : string → res (list string)) (c : TextChunker)
    (text : string) (seps : list string) :
  (∀ part, (String.length part < String.length text)%nat →
           value_or_zero_stride c (f part)) →
  value_or_zero_stride c (scan f c text seps).
Proof.
  intros Hf. induction seps as [|sep seps IH]; simpl; [done|].
  destruct (String.eqb_spec sep EmptyString) as [E|E];
    [apply char_split_value_or_zero_stride|].
  destruct (contains sep text) eqn:Hc; [|done].
  pose proof (pack_value_or_zero_stride f c sep (split text sep)) as Hp.
  specialize (Hp (fun part Hin =>
    Hf part (split_part_shorter text sep part E Hc Hin)) [] EmptyString).
  destruct (pack f c sep (split text sep) [] EmptyString) as [[? ?]| |];
    simpl in *; done.
Qed.

Lemma split_text_fuel_value_or_zero_stride (c : TextChunker) (fuel : nat)
    (text : string) :
  (String.length text < fuel)%nat →
  value_or_zero_stride c (split_text_fuel fuel c text).
Proof.
  revert text; induction fuel as [|fuel IH]; intros text Hlen; [lia|].
  simpl. destruct (_ <=? _); [done|].
  pose proof (scan_value_or_zero_stride (split_text_fuel fuel c) c text (separators c)) as Hs.
  specialize (Hs (fun part Hp => IH part ltac:(lia))).
  destruct (scan _ c text (separators c)); simpl in *; done.
Qed.

(** X13.  [_split_text] comes back on every text and for every
    configuration: the recursion on an over-long part ends.  It returns a
    list, except that it can raise [ValueError] when [chunk_overlap]
    equals [chunk_size] and the text is longer than [chunk_size]; a text
    of at most [chunk_size] characters is returned as the only chunk
    whatever the configuration. *)
Theorem split_text_comes_back (c : TextChunker) (text : string) :
  (len text <= chunk_size c ∧ _split_text c text = Ret [text])
  ∨ (chunk_size c < len text
     ∧ ((∃ chunks, _split_text c text = Ret chunks)
        ∨ (_split_text c text = Raise ValueError
           ∧ chunk_overlap c = chunk_size c))).
Proof.
  destruct (Z.leb_spec (len text) (chunk_size c)) as [Hle|Hgt].
  - left. split; [done|]. unfold _split_text. simpl.
    by replace (len text <=? chunk_size c) with true by (symmetry; by apply Z.leb_le).
  - right. split; [done|].
    pose proof (split_text_fuel_value_or_zero_stride c (S (String.length text)) text
                  ltac:(lia)) as H.
    unfold _split_text. destruct (split_text_fuel _ c text) as [chunks|e|]; simpl in H.
    + left. eauto.
    + right. by destruct H as [-> ->].
    + done.
Qed.

Lemma length_stitch (c : TextChunker) (prev : string) (rest : list string) :
  length (stitch c prev rest) = length rest.
Proof. revert prev; induction rest as [|x rest IH]; intros prev; simpl; [done | by rewrite IH]. Qed.

Lemma stitch_lookup (c : TextChunker) (rest : list string) :
  ∀ (first : string) (i : nat) (prev cur : string),
    (first :: rest) !! i = Some prev → rest !! i = Some cur →
    stitch c first rest !! i = Some (overlap_text c prev +:+ " " +:+ cur).
Proof.
  induction rest as [|x rest IH]; intros first i prev cur Hp Hc; [done|].
  destruct i as [|i]; simpl in *.
  - by injection Hp as ->; injection Hc as ->.
  - by apply IH.
Qed.

Lemma len_overlap_text (c : TextChunker) (prev : string) :
  0 < chunk_overlap c →
  len (overlap_text c prev) = Z.min (chunk_overlap c) (len prev).
Proof.
  intros Ho. unfold overlap_text.
  destruct (Z.ltb_spec (chunk_overlap c) (len prev)).
  - rewrite len_slice_from_end by done. lia.
  - lia.
Qed.

(** X14.  The overlap pass (lines 70-80) keeps the number of chunks and
    the first chunk.  With [chunk_overlap > 0] every later chunk becomes
    the last [chunk_overlap] characters of the chunk before it (all of it
    when it is not longer), one space, and the chunk itself, so it grows
    by [min(chunk_overlap, len(previous)) + 1] characters; the prefix is
    taken from the chunk as it was before the pass.  With
    [chunk_overlap <= 0] nothing changes. *)
Theorem overlap_pass (c : TextChunker) (chunks : list string) :
  length (add_overlap c chunks) = length chunks
  ∧ add_overlap c chunks !! 0%nat = chunks !! 0%nat
  ∧ (chunk_overlap c <= 0 → add_overlap c chunks = chunks)
  ∧ ∀ (i : nat) (prev cur : string),
      0 < chunk_overlap c →
      chunks !! i = Some prev → chunks !! S i = Some cur →
      ∃ out, add_overlap c chunks !! S i = Some out
        ∧ out = overlap_text c prev +:+ " " +:+ cur
        ∧ len out = Z.min (chunk_overlap c) (len prev) + 1 + len cur.
Proof.
  unfold add_overlap.
  destruct (Z.ltb_spec 0 (chunk_overlap c)) as [Ho|Ho]; simpl.
  - destruct (Z.ltb_spec 1 (Z.of_nat (length chunks))) as [Hl|Hl].
    + destruct chunks as [|first rest]; [simpl in Hl; lia|].
      simpl. rewrite length_stitch. repeat split; try done; [lia|].
      intros i prev cur _ Hp Hc. eexists. split; [by apply stitch_lookup|].
      split; [done|]. rewrite !len_append, len_overlap_text by done.
      change (len " ") with 1. lia.
    + repeat split; try done. intros i prev cur _ Hp Hc.
      apply lookup_lt_Some in Hc. lia.
  - repeat split; try done. intros; lia.
Qed.

Lemma overlap_pass_witness :
  add_overlap (configured 10 3) ["abcdefghij"; "kl"; "mnopqrst"] !! 2%nat
    = Some "kl mnopqrst".
Proof.
  destruct (overlap_pass (configured 10 3) ["abcdefghij"; "kl"; "mnopqrst"])
    as (_ & _ & _ & H).
  destruct (H 1%nat "kl" "mnopqrst" eq_refl eq_refl eq_refl) as (out & Hout & -> & _).
  exact Hout.
Defined.

Lemma filter_all {A} (P : A → Prop) `{∀ x, Decision (P x)} (l : list A) :
  (∀ x, x ∈ l → P x) → filter P l = l.
Proof.
  induction l as [|x l IH]; intros Hall; [done|].
  rewrite filter_cons_True by (apply Hall; left).
  rewrite IH; [done|]. intros y Hy. apply Hall. by right.
Qed.

Lemma range_values_forward (stop step : Z) :
  0 < step →
  range_values 0 stop step =
    map (fun k => Z.of_nat k * step) (seq 0 (Z.to_nat ((stop + step - 1) / step))).
Proof.
  intros Hs. unfold range_values.
  destruct (Z.ltb_spec 0 step); [|lia].
  by rewrite Z.sub_0_r.
Qed.

(** X15.  The character-level fallback in general.  For
    [0 <= chunk_overlap < chunk_size] and a text longer than [chunk_size]
    in which no structural separator occurs, the chunks before the
    overlap pass are the slices [text[k*stride : k*stride + chunk_size]]
    for [k = 0 .. n-1], with [stride = chunk_size - chunk_overlap] and
    [n = ceil(len(text) / stride)]; none of them is empty or longer than
    [chunk_size], and the result is the overlap pass over them. *)
Theorem fixed_stride_slices (c : TextChunker) (text : string) :
  0 <= chunk_overlap c < chunk_size c →
  chunk_size c < len text →
  unbroken c text →
  let stride := chunk_size c - chunk_overlap c in
  let n := Z.to_nat ((len text + stride - 1) / stride) in
  let window (k : nat) :=
    slice text (Z.of_nat k * stride) (Z.of_nat k * stride + chunk_size c) in
  split_pieces c text = Ret (map (fun k => Verbatim (window k)) (seq 0 n))
  ∧ _split_text c text = Ret (add_overlap c (map window (seq 0 n)))
  ∧ ∀ k, (k < n)%nat → 0 < len (window k) <= chunk_size c.
Proof.
  intros Hcfg Hlong Hu stride n window.
  assert (0 < stride) as Hstride by (unfold stride; lia).
  assert (∀ k, (k < n)%nat → 0 < len (window k) <= chunk_size c) as Hwin.
  { intros k Hk. unfold window. rewrite len_slice by nia.
    assert (Z.of_nat k * stride < len text); [|lia].
    assert (Z.of_nat k + 1 <= (len text + stride - 1) / stride) as Hq
      by (unfold n in Hk; lia).
    pose proof (Z.mul_div_le (len text + stride - 1) stride Hstride). nia. }
  assert (split_pieces c text = Ret (map (fun k => Verbatim (window k)) (seq 0 n))) as Hp.
  { unfold split_pieces.
    replace (len text <=? chunk_size c) with false by (symmetry; by apply Z.leb_gt).
    rewrite scan_chosen_empty by done. unfold char_split, range0.
    fold stride. destruct (Z.eqb_spec stride 0); [lia|]. simpl.
    rewrite range_values_forward by done. fold n.
    rewrite <- list_fmap_compose.
    rewrite filter_all.
    - by rewrite <- list_fmap_compose.
    - intros x (k & -> & Hk)%list_elem_of_fmap. simpl.
      apply elem_of_seq in Hk. apply truthy_len. apply (Hwin k). lia. }
  split; [done|]. split; [|done].
  rewrite split_text_pieces, Hp. simpl.
  by rewrite <- list_fmap_compose.
Qed.

Lemma fixed_stride_slices_witness :
  _split_text (configured 4 1) "abcdefghijk"
    = Ret ["abcd"; "d defg"; "g ghij"; "j jk"].
Proof.
  exact (proj1 (proj2 (fixed_stride_slices (configured 4 1) "abcdefghijk"
           ltac:(simpl; lia) eq_refl eq_refl))).
Defined.

Lemma substring_past (s : string) (n m : nat) :
  (String.length s ≤ n)%nat → String.substring n m s = EmptyString.
Proof.
  revert n m; induction s as [|ch s IH]; intros [|n] [|m] H; simpl in *;
    try done; try lia; apply IH; lia.
Qed.

Lemma substring_trunc (s : string) (n m : nat) :
  String.substring n (Nat.min m (String.length s - n)) s = String.substring n m s.
Proof.
  revert n m; induction s as [|ch s IH]; intros n m.
  - by destruct n, m.
  - destruct n as [|n].
    + destruct m as [|m]; [done|]. simpl. f_equal.
      specialize (IH 0%nat m). by rewrite Nat.sub_0_r in IH.
    + replace (String.length (String ch s) - S n)%nat
        with (String.length s - n)%nat by (simpl; lia).
      assert (∀ k, String.substring (S n) k (String ch s) = String.substring n k s)
        as Hs by done.
      rewrite !Hs. apply IH.
Qed.

Lemma slice_substring (s : string) (a m : Z) :
  0 <= a → 0 <= m →
  slice s a (a + m) = String.substring (Z.to_nat a) (Z.to_nat m) s.
Proof.
  intros Ha Hm. unfold slice, clamp, len.
  destruct (Z.ltb_spec a 0); [lia|]. destruct (Z.ltb_spec (a + m) 0); [lia|].
  destruct (Z_le_gt_dec a (Z.of_nat (String.length s))) as [Hin|Hout].
  - rewrite <- (substring_trunc s (Z.to_nat a) (Z.to_nat m)).
    f_equal; lia.
  - rewrite !substring_past by lia. done.
Qed.

Lemma substring_sdrop (s : string) (d a b : nat) :
  String.substring (d + a) b s = String.substring a b (sdrop d s).
Proof.
  revert s; induction d as [|d IH]; intros s; [done|].
  destruct s as [|ch s]; simpl.
  - by destruct a, b.
  - apply IH.
Qed.

Lemma substring_then_sdrop (s : string) (m : nat) :
  String.substring 0 m s +:+ sdrop m s = s.
Proof.
  revert s; induction m as [|m IH]; intros [|ch s]; simpl; try done.
  by rewrite IH.
Qed.

(** Adjacent slices of one length, as many as cover the string, put
    together give the string. *)
Lemma adjacent_substrings (size n : nat) :
  ∀ s, (String.length s ≤ n * size)%nat →
    foldr String.append EmptyString
      (map (fun k => String.substring (k * size) size s) (seq 0 n)) = s.
Proof.
  induction n as [|n IH]; intros s Hlen.
  - destruct s; [done | simpl in Hlen; lia].
  - cbn [seq map foldr]. rewrite <- seq_shift, map_map.
    rewrite (map_ext _ (fun k => String.substring (k * size) size (sdrop size s))).
    + rewrite IH by (rewrite sdrop_length; lia).
      apply substring_then_sdrop.
    + intros k. rewrite <- substring_sdrop. f_equal; lia.
Qed.

(** The last character of the string is white space. *)
Fixpoint ends_with_space (s : string) : bool :=
  match s with
  | EmptyString => false
  | String ch EmptyString => is_space ch
  | String _ s' => ends_with_space s'
  end.

Lemma length_lstrip (s : string) :
  (String.length (lstrip s) ≤ String.length s)%nat.
Proof.
  induction s as [|ch s IH]; simpl; [done|].
  destruct (is_space ch); simpl; lia.
Qed.

Lemma length_rstrip (s : string) :
  (String.length (rstrip s) ≤ String.length s)%nat.
Proof.
  induction s as [|ch s IH]; simpl; [done|].
  destruct (rstrip s); simpl in *; [destruct (is_space ch); simpl; lia | lia].
Qed.

Lemma len_strip (s : string) : len (strip s) <= len s.
Proof.
  unfold len, strip. pose proof (length_rstrip (lstrip s)).
  pose proof (length_lstrip s). lia.
Qed.

Lemma length_rstrip_space (s : string) :
  ends_with_space s = true →
  (String.length (rstrip s) + 1 ≤ String.length s)%nat.
Proof.
  induction s as [|ch s IH]; [done|].
  destruct s as [|ch' s].
  - simpl. by intros ->.
  - intros H. specialize (IH H). remember (String ch' s) as t eqn:Et.
    assert (rstrip (String ch t) =
              match rstrip t with
              | EmptyString => if is_space ch then EmptyString else String ch EmptyString
              | String a r => String ch (String a r)
              end) as -> by done.
    change (String.length (String ch t)) with (S (String.length t)).
    destruct (rstrip t); cbn [String.length] in *;
      [destruct (is_space ch); cbn [String.length]; lia | lia].
Qed.

Lemma lstrip_keeps_end (s : string) :
  ends_with_space s = true →
  lstrip s = EmptyString ∨ ends_with_space (lstrip s) = true.
Proof.
  induction s as [|ch s IH]; [done|].
  intros H. cbn [lstrip]. destruct (is_space ch) eqn:E; [|by right].
  destruct s as [|ch' s]; [by left|]. by apply IH.
Qed.

Lemma len_strip_space (s : string) :
  ends_with_space s = true → len (strip s) + 1 <= len s.
Proof.
  intros H. unfold strip, len.
  pose proof (length_lstrip s).
  destruct (lstrip_keeps_end s H) as [->|H'].
  - simpl. destruct s; [done | simpl; lia].
  - pose proof (length_rstrip_space _ H'). lia.
Qed.

Lemma ends_with_space_app (a b : string) :
  ends_with_space b = true → ends_with_space (a +:+ b) = true.
Proof.
  intros H. induction a as [|ch a IH]; [done|].
  simpl. destruct (a +:+ b) eqn:E; [|done].
  destruct a, b; simpl in *; done.
Qed.

Lemma range_values_nonneg (stop step i : Z) :
  0 <= stop → i ∈ range_values 0 stop step → 0 <= i.
Proof.
  intros Hstop. destruct (Z.lt_trichotomy step 0) as [Hs|[->|Hs]].
  - rewrite Construction.range_values_backwards by done.
    by intros ?%elem_of_nil.
  - unfold range_values. simpl. rewrite Z.div_0_r. by intros ?%elem_of_nil.
  - rewrite range_values_forward by done.
    intros (k & -> & _)%list_elem_of_fmap. nia.
Qed.

Section Bounded.
Context (c : TextChunker) (limit : Z).
Hypothesis size_below : 0 <= chunk_size c <= limit.
Hypothesis part_below : ∀ sep part,
  sep ∈ separators c → sep ≠ EmptyString → len part <= chunk_size c →
  len (strip (part +:+ sep)) <= limit.

(** The chunks turn out at most [limit] characters long. *)
Definition bounded (pieces : list piece) : Prop :=
  ∀ p, p ∈ pieces → len (render p) <= limit.

Lemma bounded_flush (chunks : list piece) (cur : string) :
  bounded chunks → len (strip cur) <= limit → bounded (flush chunks cur).
Proof.
  intros Hc Hq. unfold flush. destruct (truthy cur); [|done].
  intros p [Hp|Hp]%elem_of_app; [by apply Hc|].
  by apply list_elem_of_singleton in Hp as ->.
Qed.

Lemma pack_bounded (f : string → res (list string)) (sep : string)
    (parts : list string) :
  sep ∈ separators c → sep ≠ EmptyString →
  (∀ part sub x, part ∈ parts → f part = Ret sub → x ∈ sub → len x <= limit) →
  ∀ chunks cur chunks' cur',
    bounded chunks → len (strip cur) <= limit →
    pack f c sep parts chunks cur = Ret (chunks', cur') →
    bounded chunks' ∧ len (strip cur') <= limit.
Proof.
  intros Hin Hne. induction parts as [|part parts IH];
    intros Hf chunks cur chunks' cur' Hc Hq; cbn [pack].
  - by intros [= <- <-].
  - assert (∀ p sub x, p ∈ parts → f p = Ret sub → x ∈ sub → len x <= limit) as Hf'
      by (intros p sub x Hp; apply Hf; by right).
    destruct (Z.leb_spec (len cur + len part + len sep) (chunk_size c)) as [Hfit|_].
    + apply IH; [done | done |].
      pose proof (len_strip (cur +:+ part +:+ sep)).
      rewrite !len_append in *. lia.
    + destruct (Z.ltb_spec (chunk_size c) (len part)) as [Hbig|Hsmall].
      * destruct (f part) as [sub| |] eqn:Hsub; simpl; [|done|done].
        apply IH; [done| |].
        -- intros p [Hp|Hp]%elem_of_app.
           ++ by apply (bounded_flush chunks cur).
           ++ apply list_elem_of_fmap in Hp as (x & -> & Hx).
              simpl. apply (Hf part sub x); [left | done | done].
        -- change (strip "") with "". unfold len. simpl. lia.
      * apply IH; [done | by apply bounded_flush | by apply part_below].
Qed.

Lemma char_split_bounded (text : string) (pieces : list piece) :
  char_split c text = Ret pieces → bounded pieces.
Proof.
  unfold char_split, range0.
  destruct (Z.eqb_spec (chunk_size c - chunk_overlap c) 0); [done|]. simpl.
  intros [= <-] p (x & -> & Hx)%list_elem_of_fmap. simpl.
  apply list_elem_of_filter in Hx as [Hx (i & -> & Hi)%list_elem_of_fmap].
  apply range_values_nonneg in Hi; [|apply len_nonneg].
  rewrite len_slice by lia. lia.
Qed.

Lemma scan_bounded (f : string → res (list string)) (text : string)
    (seps : list string) (pieces : list piece) :
  (∀ sep, sep ∈ seps → sep ∈ separators c) →
  (∀ part sub x, f part = Ret sub → x ∈ sub → len x <= limit) →
  scan f c text seps = Ret pieces → bounded pieces.
Proof.
  intros Hseps Hf. induction seps as [|sep seps IH]; cbn [scan].
  - intros [= <-] p Hp. by apply elem_of_nil in Hp.
  - destruct (String.eqb_spec sep EmptyString) as [E|E];
      [apply char_split_bounded|].
    destruct (contains sep text); [|apply IH; intros s Hs; apply Hseps; by right].
    destruct (pack f c sep (split text sep) [] EmptyString) as [[chunks cur]| |] eqn:Hp;
      simpl; [|done|done].
    intros [= <-].
    destruct (pack_bounded f sep (split text sep) (Hseps sep ltac:(left)) E
                (fun part sub x _ => Hf part sub x) [] EmptyString chunks cur) as [Hc Hq].
    + intros p Hp'. by apply elem_of_nil in Hp'.
    + change (strip "") with "". unfold len. simpl. lia.
    + done.
    + by apply bounded_flush.
Qed.

Lemma split_text_fuel_bounded (fuel : nat) (text : string) (chunks : list string) :
  chunk_overlap c = 0 →
  split_text_fuel fuel c text = Ret chunks →
  ∀ x, x ∈ chunks → len x <= limit.
Proof.
  intros Ho. revert text chunks; induction fuel as [|fuel IH]; intros text chunks; [done|].
  cbn [split_text_fuel].
  destruct (Z.leb_spec (len text) (chunk_size c)) as [Hfit|_].
  - intros [= <-] x ->%list_elem_of_singleton. lia.
  - destruct (scan _ c text (separators c)) as [pieces| |] eqn:Hs; simpl; [|done|done].
    intros [= <-] x Hx.
    unfold add_overlap in Hx. rewrite Ho in Hx. simpl in Hx.
    apply list_elem_of_fmap in Hx as (p & -> & Hp).
    apply (scan_bounded (split_text_fuel fuel c) text (separators c) pieces); try done.
    intros part sub y Hsub. by apply (IH part sub).
Qed.
End Bounded.

(** X16.  Without overlap the chunks stay within one character of the
    limit.  For [TextChunker(size, 0)] with [size > 0], [_split_text]
    returns on every text, and no chunk it returns has more than
    [size + 1] characters: a buffer holds at most [size] characters or
    one part of at most [size] characters and its separator, every
    separator ends in white space, and [strip()] removes that. *)
Theorem chunks_within_one_of_limit (size : Z) (text : string) :
  0 < size →
  ∃ chunks, _split_text (configured size 0) text = Ret chunks
    ∧ ∀ x, x ∈ chunks → len x <= size + 1.
Proof.
  intros Hsize.
  destruct (split_text_returns (configured size 0) text) as [chunks Hc];
    [simpl; lia|].
  exists chunks. split; [done|].
  apply (split_text_fuel_bounded (configured size 0) (size + 1)) with
    (fuel := S (String.length text)) (text := text); try done.
  - simpl. lia.
  - intros sep part Hin Hne Hpart. simpl in Hin, Hpart.
    assert (ends_with_space sep = true ∧ len sep <= 2) as [He Hl].
    { repeat (apply elem_of_cons in Hin as [->|Hin]; [by vm_compute|]).
      by apply elem_of_nil in Hin. }
    pose proof (len_strip_space (part +:+ sep) (ends_with_space_app part sep He)).
    rewrite len_append in *. lia.
Qed.

Lemma chunks_within_one_of_limit_witness :
  ∃ chunks, _split_text (configured 5 0) "abcde. fg" = Ret chunks
    ∧ ∀ x, x ∈ chunks → len x <= 5 + 1.
Proof. apply chunks_within_one_of_limit. lia. Defined.

(** X22.  Without overlap the character-level fallback loses nothing.
    For [chunk_overlap = 0] and a text longer than [chunk_size > 0] in
    which no structural separator occurs, the chunks returned by
    [_split_text], put together in order, are the text. *)
Theorem fixed_stride_is_lossless (c : TextChunker) (text : string) :
  chunk_overlap c = 0 → 0 < chunk_size c →
  chunk_size c < len text →
  unbroken c text →
  ∃ chunks, _split_text c text = Ret chunks
    ∧ foldr String.append EmptyString chunks = text.
Proof.
  intros Ho Hsize Hlong Hu.
  assert (scan (split_text_fuel (String.length text) c) c text (separators c)
          = char_split c text) as Hscan by by apply scan_chosen_empty.
  unfold _split_text. cbn [split_text_fuel].
  replace (len text <=? chunk_size c) with false by (symmetry; by apply Z.leb_gt).
  rewrite Hscan. unfold char_split, range0. rewrite Ho, Z.sub_0_r.
  destruct (Z.eqb_spec (chunk_size c) 0) as [?|Hne]; [lia|]. simpl.
  rewrite range_values_forward by done.
  eexists. split; [reflexivity|].
  unfold add_overlap. rewrite Ho. simpl.
  rewrite <- !list_fmap_compose.
  set (n := Z.to_nat ((len text + chunk_size c - 1) / chunk_size c)).
  assert (String.length text ≤ n * Z.to_nat (chunk_size c))%nat as Hcover.
  { pose proof (Z.mul_div_le (len text + chunk_size c - 1) (chunk_size c) Hsize).
    pose proof (Z.mod_pos_bound (len text + chunk_size c - 1) (chunk_size c) Hsize).
    pose proof (Z.div_mod (len text + chunk_size c - 1) (chunk_size c) ltac:(lia)).
    assert (0 <= (len text + chunk_size c - 1) / chunk_size c)
      by (apply Z.div_pos; unfold len in *; lia).
    unfold n, len in *. nia. }
  rewrite filter_all.
  - rewrite <- list_fmap_compose.
    etransitivity;
      [|exact (adjacent_substrings (Z.to_nat (chunk_size c)) n text Hcover)].
    f_equal. apply list_fmap_ext. intros _ k _. simpl.
    rewrite slice_substring by lia. f_equal; lia.
  - intros x (k & -> & Hk)%list_elem_of_fmap. simpl.
    apply elem_of_seq in Hk. apply truthy_len.
    rewrite len_slice by nia.
    assert (Z.of_nat k * chunk_size c < len text); [|lia].
    assert (Z.of_nat k + 1 <= (len text + chunk_size c - 1) / chunk_size c) as Hq
      by (unfold n in Hk; lia).
    pose proof (Z.mul_div_le (len text + chunk_size c - 1) (chunk_size c) Hsize). nia.
Qed.

Lemma fixed_stride_is_lossless_witness :
  ∃ chunks, _split_text (configured 4 0) "abcdefghijk" = Ret chunks
    ∧ foldr String.append EmptyString chunks = "abcdefghijk".
Proof.
  apply fixed_stride_is_lossless; [reflexivity | reflexivity | reflexivity |].
  vm_compute. reflexivity.
Defined.

End ChunkerLaws.

(** ** TextChunker: files and directories *)

Module ChunkerFiles.
Import Py PyFacts Chunker ChunkerFacts.

#[local] Arguments String.append !s1 s2 : simpl nomatch.

(** The file system as [chunk_file] and [chunk_directory] see it. *)
Record Files := {
  (** [open(path, 'r', encoding='utf-8').read()], [None] when opening,
      reading or decoding raises. *)
  read_text : string → option string;
  (** [os.listdir(directory)], [None] when it raises. *)
  listdir : string → option (list string)
}.

(** [s.endswith(suffix)] *)
Definition endswith (s suffix : string) : bool :=
  let n := String.length s in
  let m := String.length suffix in
  (m <=? n)%nat && String.eqb (String.substring (n - m) m s) suffix.

(** [posixpath.join(a, b)] *)
Definition path_join (a b : string) : string :=
  if String.prefix "/" b then b
  else if negb (truthy a) || endswith a "/" then a +:+ b
  else a +:+ "/" +:+ b.

(** Lines 122-125 *)
Definition file_metadata (file_path : string) : gmap string value :=
  <["file_path" := VStr file_path]> (<["source" := VStr (basename file_path)]> ∅).

(** [TextChunker.chunk_file]: any exception ends in [return []]. *)
Definition chunk_file (fs : Files) (c : TextChunker) (file_path : string)
    : res (list (gmap string value)) :=
  match
    match read_text fs file_path with
    | Some text => chunk_text c text (Some (file_metadata file_path))
    | None => Raise OSError
    end
  with
  | Ret records => Ret records
  | Raise _ => Ret []
  | Unfinished => Unfinished
  end.

(** Lines 146-151: the loop over the listing, on the state [all_chunks]. *)
Fixpoint chunk_listing (fs : Files) (c : TextChunker) (directory extension : string)
    (listing : list string) (all_chunks : list (gmap string value))
    : res (list (gmap string value)) :=
  match listing with
  | [] => Ret all_chunks
  | filename :: listing' =>
      if endswith filename extension then
        chunks ← chunk_file fs c (path_join directory filename) ;
        chunk_listing fs c directory extension listing' (all_chunks ++ chunks)
      else chunk_listing fs c directory extension listing' all_chunks
  end.

(** [TextChunker.chunk_directory] *)
Definition chunk_directory (fs : Files) (c : TextChunker)
    (directory extension : string) : res (list (gmap string value)) :=
  match listdir fs directory with
  | Some listing => chunk_listing fs c directory extension listing []
  | None => Raise OSError
  end.

Lemma file_metadata_given (file_path : string) :
  metadata_given (Some (file_metadata file_path)) = true.
Proof.
  unfold metadata_given, file_metadata. apply negb_true_iff.
  apply bool_decide_eq_false_2. apply insert_non_empty.
Qed.

Lemma chunk_data_file (file_path : string) (total i : nat) (chunk : string) :
  chunk_data (Some (file_metadata file_path)) total i chunk =
    <["file_path" := VStr file_path]>
      (<["source" := VStr (basename file_path)]>
         (<["total_chunks" := VInt (Z.of_nat total)]>
            (<["chunk_index" := VInt (Z.of_nat i)]>
               (<["text" := VStr chunk]> ∅)))).
Proof.
  unfold chunk_data. rewrite file_metadata_given. simpl. unfold file_metadata.
  apply map_eq. intros k.
  rewrite lookup_union, !lookup_insert, !lookup_empty.
  repeat case_decide; subst; simpl; try done.
Qed.

(** X17.  [chunk_file] never raises.  A file that cannot be read gives no
    chunk, and so does a text on which [_split_text] raises: the error is
    swallowed.  Otherwise there is one record per chunk of [_split_text],
    in order, and record [i] is exactly the five keys [text] (the chunk),
    [chunk_index] ([i]), [total_chunks] (the number of records),
    [source] (the file name of the path) and [file_path] (the path). *)
Theorem chunk_file_records (fs : Files) (c : TextChunker) (file_path : string) :
  ∃ records, chunk_file fs c file_path = Ret records
    ∧ match read_text fs file_path with
      | None => records = []
      | Some text =>
          match _split_text c text with
          | Ret chunks =>
              length records = length chunks
              ∧ ∀ (i : nat) (chunk : string), chunks !! i = Some chunk →
                  records !! i = Some
                    (<["file_path" := VStr file_path]>
                       (<["source" := VStr (basename file_path)]>
                          (<["total_chunks" := VInt (Z.of_nat (length records))]>
                             (<["chunk_index" := VInt (Z.of_nat i)]>
                                (<["text" := VStr chunk]> ∅)))))
          | Raise _ => records = [] ∧ chunk_overlap c = chunk_size c
          | Unfinished => False
          end
      end.
Proof.
  unfold chunk_file, chunk_text.
  destruct (read_text fs file_path) as [text|]; [|by exists []].
  pose proof (split_text_finishes c text) as Hfin.
  pose proof (split_text_returns c text) as Hret.
  destruct (_split_text c text) as [chunks|e|]; simpl; [| |done].
  - eexists. split; [reflexivity|]. rewrite length_imap. split; [done|].
    intros i chunk Hi. rewrite list_lookup_imap, Hi. simpl.
    by rewrite chunk_data_file.
  - exists []. repeat split.
    destruct (decide (chunk_size c = chunk_overlap c)) as [E|E]; [done|].
    by destruct (Hret E).
Qed.

Lemma contains_here (sep s : string) :
  String.prefix sep s = true → contains sep s = true.
Proof. intros H. destruct s; simpl in *; by rewrite H. Qed.

Lemma contains_slash_app (a b : string) : contains "/" (a +:+ "/" +:+ b) = true.
Proof.
  induction a as [|ch a IH].
  - apply contains_here. simpl. by destruct b.
  - change (String ch a +:+ "/" +:+ b) with (String ch (a +:+ "/" +:+ b)).
    cbn [contains]. rewrite IH. apply orb_true_r.
Qed.

Lemma basename_app_slash (a b : string) :
  contains "/" b = false → basename (a +:+ "/" +:+ b) = b.
Proof.
  intros Hb. induction a as [|ch a IH].
  - change ("" +:+ "/" +:+ b) with (String "/" b). cbn [basename]. by rewrite Hb.
  - change (String ch a +:+ "/" +:+ b) with (String ch (a +:+ "/" +:+ b)).
    cbn [basename]. by rewrite contains_slash_app.
Qed.

Lemma basename_no_slash (b : string) : contains "/" b = false → basename b = b.
Proof.
  destruct b as [|ch b]; [done|]. cbn [contains basename].
  intros [Hp Hc]%orb_false_iff. rewrite Hc.
  destruct (Ascii.eqb_spec ch "/") as [->|]; [|done].
  simpl in Hp. by destruct b.
Qed.

Lemma endswith_slash (a : string) :
  endswith a "/" = true → ∃ a', a = a' +:+ "/".
Proof.
  induction a as [|ch a IH]; [done|].
  destruct a as [|ch' a].
  - unfold endswith. simpl. destruct (Ascii.eqb_spec ch "/") as [->|]; [|done].
    intros _. by exists EmptyString.
  - intros H. destruct IH as [a' Ha'].
    + unfold endswith in *. simpl in *. by rewrite Nat.sub_0_r in *.
    + exists (String ch a'). simpl. by rewrite <- Ha'.
Qed.

(** The directory listing names files: no name contains a slash. *)
Definition plain_names (listing : list string) : Prop :=
  ∀ filename, filename ∈ listing → contains "/" filename = false.

Lemma basename_path_join (directory filename : string) :
  contains "/" filename = false →
  basename (path_join directory filename) = filename.
Proof.
  intros Hf. unfold path_join.
  destruct (String.prefix "/" filename) eqn:Hp.
  - apply contains_here in Hp. congruence.
  - destruct (truthy directory) eqn:Ht; cbn [negb orb].
    + destruct (endswith directory "/") eqn:He.
      * apply endswith_slash in He as [a' ->].
        rewrite append_assoc. by apply basename_app_slash.
      * by apply basename_app_slash.
    + destruct directory; [|done]. by apply basename_no_slash.
Qed.

Lemma chunk_file_returns (fs : Files) (c : TextChunker) (file_path : string) :
  ∃ records, chunk_file fs c file_path = Ret records.
Proof.
  unfold chunk_file, chunk_text.
  destruct (read_text fs file_path) as [text|]; [|by exists []].
  pose proof (split_text_finishes c text) as Hfin.
  destruct (_split_text c text); simpl; [eauto | by exists [] | done].
Qed.

Lemma chunk_file_labels (fs : Files) (c : TextChunker) (file_path : string)
    (records : list (gmap string value)) (r : gmap string value) :
  chunk_file fs c file_path = Ret records → r ∈ records →
  r !! "source" = Some (VStr (basename file_path))
  ∧ r !! "file_path" = Some (VStr file_path).
Proof.
  unfold chunk_file, chunk_text.
  destruct (read_text fs file_path) as [text|];
    [|by intros [= <-] ?%elem_of_nil].
  destruct (_split_text c text) as [chunks|e|]; simpl;
    [|by intros [= <-] ?%elem_of_nil|done].
  intros [= <-] (i & Hi)%list_elem_of_lookup.
  rewrite list_lookup_imap in Hi.
  destruct (chunks !! i) as [chunk|]; [|done]. injection Hi as <-.
  by rewrite chunk_data_file.
Qed.

Lemma chunk_listing_spec (fs : Files) (c : TextChunker) (directory extension : string)
    (listing : list string) :
  ∀ all_chunks, ∃ added,
    chunk_listing fs c directory extension listing all_chunks = Ret (all_chunks ++ added)
    ∧ ∀ r, r ∈ added ↔
        ∃ filename records,
          filename ∈ listing ∧ endswith filename extension = true
          ∧ chunk_file fs c (path_join directory filename) = Ret records
          ∧ r ∈ records.
Proof.
  induction listing as [|filename listing IH]; intros all_chunks.
  - exists []. rewrite app_nil_r. split; [done|]. intros r. split.
    + by intros ?%elem_of_nil.
    + by intros (f & recs & ?%elem_of_nil & _).
  - cbn [chunk_listing]. destruct (endswith filename extension) eqn:He.
    + destruct (chunk_file_returns fs c (path_join directory filename)) as [chunks Hc].
      rewrite Hc. simpl.
      destruct (IH (all_chunks ++ chunks)) as (added & -> & Hadded).
      exists (chunks ++ added). rewrite app_assoc. split; [done|].
      intros r. rewrite elem_of_app, Hadded. split.
      * intros [Hr|(f & recs & Hf & Hrest)].
        -- exists filename, chunks. repeat split; try done. left.
        -- exists f, recs. split; [by right | done].
      * intros (f & recs & [->|Hf]%elem_of_cons & He' & Hc' & Hr).
        -- left. congruence.
        -- right. by exists f, recs.
    + destruct (IH all_chunks) as (added & -> & Hadded).
      exists added. split; [done|]. intros r. rewrite Hadded. split.
      * intros (f & recs & Hf & Hrest). exists f, recs. split; [by right | done].
      * intros (f & recs & [->|Hf]%elem_of_cons & He' & Hrest); [congruence|].
        by exists f, recs.
Qed.

(** X18.  When the directory can be listed, [chunk_directory] returns.
    What it returns are the records that [chunk_file] gives for the
    listed names that end in the extension, each joined to the
    directory, and nothing else; so every record carries as [source] a
    listed file name with that extension and as [file_path] that name
    joined to the directory. *)
Theorem chunk_directory_records (fs : Files) (c : TextChunker)
    (directory extension : string) (listing : list string) :
  listdir fs directory = Some listing → plain_names listing →
  ∃ all_chunks,
    chunk_directory fs c directory extension = Ret all_chunks
    ∧ (∀ r, r ∈ all_chunks ↔
         ∃ filename records,
           filename ∈ listing ∧ endswith filename extension = true
           ∧ chunk_file fs c (path_join directory filename) = Ret records
           ∧ r ∈ records)
    ∧ ∀ r, r ∈ all_chunks →
        ∃ filename,
          filename ∈ listing ∧ endswith filename extension = true
          ∧ r !! "source" = Some (VStr filename)
          ∧ r !! "file_path" = Some (VStr (path_join directory filename)).
Proof.
  intros Hl Hplain. unfold chunk_directory. rewrite Hl.
  destruct (chunk_listing_spec fs c directory extension listing []) as (added & -> & H).
  exists added. split; [done|]. split; [done|].
  intros r (f & recs & Hf & He & Hc & Hr)%H.
  exists f. repeat split; try done.
  - destruct (chunk_file_labels fs c _ recs r Hc Hr) as [Hs _].
    by rewrite basename_path_join in Hs by by apply Hplain.
  - by destruct (chunk_file_labels fs c _ recs r Hc Hr) as [_ Hp].
Qed.

(** A directory with a note, a picture and a file that cannot be read. *)
Definition notes : Files :=
  {| read_text := fun p =>
       if String.eqb p "docs/a.md" then Some "alpha beta" else None;
     listdir := fun d =>
       if String.eqb d "docs" then Some ["a.md"; "b.png"; "c.md"] else None |}.

Lemma chunk_directory_records_witness :
  ∃ all_chunks r,
    chunk_directory notes (configured 6 0) "docs" ".md" = Ret all_chunks
    ∧ all_chunks !! 1%nat = Some r
    ∧ r !! "source" = Some (VStr "a.md")
    ∧ r !! "file_path" = Some (VStr "docs/a.md")
    ∧ r !! "text" = Some (VStr "beta").
Proof.
  destruct (chunk_directory_records notes (configured 6 0) "docs" ".md"
              ["a.md"; "b.png"; "c.md"] eq_refl) as (all_chunks & Hc & _ & Hl).
  { intros f Hf.
    repeat (apply elem_of_cons in Hf as [->|Hf]; [reflexivity|]).
    by apply elem_of_nil in Hf. }
  vm_compute in Hc. injection Hc as <-.
  eexists. eexists. split; [reflexivity|]. split; [reflexivity|].
  destruct (Hl _ ltac:(right; left)) as (f & _ & _ & Hs & Hp).
  repeat split; try reflexivity.
Defined.

End ChunkerFiles.

(** ** The ingestion driver: what is skipped, what is parsed *)

Module Driver.
Import Py Tracker TrackerFacts DictFacts TrackerLaws.

(** What the loop of [scripts/process_documents.py] decides for one file
    of a supported type (lines 104-122). *)
Inductive verdict : Type :=
| AlreadyProcessed
| DuplicateOf (duplicate_filename : string)
| ToParse (is_update : bool).

(** Lines 118-122: the file goes on to the parser. *)
Definition go_on (w : World) (file_path : string) : M verdict :=
  is_update ← is_updated w file_path ;
  mret (ToParse is_update).

(** Lines 104-122.  [force] is [args.force]; with it [is_processed] is
    not called ([not args.force and ...]). *)
Definition triage (force : bool) (w : World) (file_path : string) : M verdict :=
  processed ← ((if negb force then is_processed w file_path else mret false) : M bool) ;
  if (processed : bool) then mret AlreadyProcessed
  else
    duplicate_info ← find_duplicate_by_hash w file_path ;
    match duplicate_info with
    | Some (duplicate_filename, _) =>
        if negb force then mret (DuplicateOf duplicate_filename)
        else go_on w file_path
    | None => go_on w file_path
    end.

(** Lines 236-238: every path of [file_chunks_map] is marked with its
    number of chunks, in the order of the dictionary. *)
Fixpoint mark_all (w : World) (file_chunks_map : list (string * Z)) : M unit :=
  match file_chunks_map with
  | [] => mret tt
  | (raw_path, chunks_count) :: rest =>
      mark_processed w raw_path chunks_count ;; mark_all w rest
  end.

(** What [_get_file_info] gives for a path; it does not look at the
    tracker. *)
Definition current_info (w : World) (file_path : string) : outcome (Z * Z * string) :=
  match stat w file_path with
  | Some (sz, mt) =>
      match isoformat w mt with
      | Ok date => Ok (sz, mt, date)
      | Err e => Err e
      end
  | None => Err OSError
  end.

Lemma get_file_info_current (w : World) (file_path : string) (st : State) :
  _get_file_info w file_path st = (current_info w file_path, st).
Proof.
  unfold _get_file_info, current_info.
  destruct (stat w file_path) as [[sz mt]|]; [|done].
  by destruct (isoformat w mt).
Qed.

(** The answer of [is_processed] ([on_change = false]) and of
    [is_updated] ([on_change = true]), read off the dictionary and
    [_get_file_info]. *)
Definition answer (on_change : bool) (w : World) (file_path : string) (d : store)
    : outcome bool :=
  match dict_get (basename file_path) d with
  | None => Ok false
  | Some info =>
      match current_info w file_path with
      | Ok current => Ok (if on_change then changed current info
                          else negb (changed current info))
      | Err OSError => Ok false
      | Err e => Err e
      end
  end.

Definition processed_now := answer false.
Definition updated_now := answer true.

Lemma is_processed_answer (w : World) (file_path : string) (st : State) :
  is_processed w file_path st = (processed_now w file_path (processed_files st), st).
Proof.
  unfold processed_now, answer, is_processed, unless_OSError.
  unfold mbind, mret, M_bind, M_ret, get_files, subscript, raise. simpl.
  destruct (dict_in _ _) eqn:Hin; simpl.
  - apply dict_in_get in Hin as [info Hinfo]. rewrite Hinfo.
    rewrite get_file_info_current.
    destruct (current_info w file_path) as [current|[]]; simpl; try done.
    unfold mbind, mret, M_bind, M_ret, get_files. simpl.
    rewrite Hinfo. simpl. by destruct (changed _ _).
  - by rewrite (dict_in_false_get _ _ Hin).
Qed.

Lemma is_updated_answer (w : World) (file_path : string) (st : State) :
  is_updated w file_path st = (updated_now w file_path (processed_files st), st).
Proof.
  unfold updated_now, answer, is_updated, unless_OSError.
  unfold mbind, mret, M_bind, M_ret, get_files, subscript, raise. simpl.
  destruct (dict_in _ _) eqn:Hin; simpl.
  - apply dict_in_get in Hin as [info Hinfo]. rewrite Hinfo.
    rewrite get_file_info_current.
    destruct (current_info w file_path) as [current|[]]; simpl; try done.
    unfold mbind, mret, M_bind, M_ret, get_files. simpl.
    rewrite Hinfo. simpl. by destruct (changed _ _).
  - by rewrite (dict_in_false_get _ _ Hin).
Qed.

(** When one of the two raises, so does the other, and for the same
    reason: the file is tracked and [_get_file_info] raises something
    that is not an [OSError]. *)
Lemma answer_raises (on_change : bool) (w : World) (file_path : string)
    (d : store) (e : exn) :
  answer on_change w file_path d = Err e →
  e ≠ OSError ∧ current_info w file_path = Err e
  ∧ is_Some (dict_get (basename file_path) d)
  ∧ ∀ other, answer other w file_path d = Err e.
Proof.
  unfold answer. destruct (dict_get _ d) as [info|]; [|done].
  destruct (current_info w file_path) as [current|e']; [done|].
  destruct e'; try done; intros [= <-]; eauto.
Qed.

Lemma find_duplicate_answer (w : World) (file_path : string) (st : State) :
  ∃ r, find_duplicate_by_hash w file_path st = (Ok r, st).
Proof.
  run. destruct (content_digest w file_path); simpl; eauto.
Qed.

Lemma hash_failure_keeps_going (w : World) (file_path : string) (st : State) :
  content_digest w file_path = None →
  find_duplicate_by_hash w file_path st = (Ok None, st).
Proof. intros H. run. by rewrite H. Qed.

Lemma go_on_answer (w : World) (file_path : string) (st : State) :
  go_on w file_path st =
    (match updated_now w file_path (processed_files st) with
     | Ok is_update => Ok (ToParse is_update)
     | Err e => Err e
     end, st).
Proof.
  unfold go_on, mbind, M_bind. rewrite is_updated_answer.
  by destruct (updated_now _ _ _).
Qed.

(** The conditions under which the decision of the loop is reached. *)
Definition verdict_holds (force : bool) (w : World) (file_path : string)
    (st : State) (r : outcome verdict) : Prop :=
  match r with
  | Ok AlreadyProcessed =>
      force = false ∧ is_processed w file_path st = (Ok true, st)
  | Ok (DuplicateOf name) =>
      force = false
      ∧ is_processed w file_path st = (Ok false, st)
      ∧ name ≠ basename file_path
      ∧ ∃ info, (name, info) ∈ processed_files st
                ∧ is_Some (content_hash info)
                ∧ content_hash info = content_digest w file_path
  | Ok (ToParse is_update) =>
      is_updated w file_path st = (Ok is_update, st)
      ∧ (force = false → is_processed w file_path st = (Ok false, st))
  | Err e =>
      e ≠ OSError
      ∧ (_get_file_info w file_path st).1 = Err e
      ∧ is_Some (dict_get (basename file_path) (processed_files st))
      ∧ is_updated w file_path st = (Err e, st)
      ∧ (force = false → is_processed w file_path st = (Err e, st))
  end.

Lemma go_on_holds (force : bool) (w : World) (file_path : string) (st : State) :
  (force = false → is_processed w file_path st = (Ok false, st)) →
  ∃ r, go_on w file_path st = (r, st) ∧ verdict_holds force w file_path st r.
Proof.
  intros Hp. rewrite go_on_answer. eexists. split; [reflexivity|].
  destruct (updated_now w file_path (processed_files st)) as [u|e] eqn:Hu.
  - simpl. split; [|done]. by rewrite is_updated_answer, Hu.
  - simpl. destruct (answer_raises true w file_path _ e Hu) as (Hne & Hc & Ht & Ho).
    rewrite get_file_info_current, is_updated_answer, Hu. repeat split; try done.
    intros Hf. specialize (Hp Hf). rewrite is_processed_answer in Hp.
    unfold processed_now in Hp. rewrite (Ho false) in Hp. done.
Qed.

(** X19.  Deciding about a file changes nothing.  With [--force] every
    file goes on to the parser.  Without it a file is passed over as
    processed exactly when [is_processed] says so, and a file passed
    over as a duplicate is named after a tracked file with another name
    whose recorded hash is the digest of this one.  The decision fails
    only for a tracked file whose modified time [_get_file_info] cannot
    format, with an exception other than [OSError]: [is_updated], and
    without [--force] [is_processed], raise it out of the loop. *)
Theorem triage_verdicts (force : bool) (w : World) (file_path : string) (st : State) :
  ∃ r, triage force w file_path st = (r, st)
    ∧ match r with
      | Ok AlreadyProcessed =>
          force = false ∧ is_processed w file_path st = (Ok true, st)
      | Ok (DuplicateOf name) =>
          force = false
          ∧ is_processed w file_path st = (Ok false, st)
          ∧ name ≠ basename file_path
          ∧ ∃ info, (name, info) ∈ processed_files st
                    ∧ is_Some (content_hash info)
                    ∧ content_hash info = content_digest w file_path
      | Ok (ToParse is_update) =>
          is_updated w file_path st = (Ok is_update, st)
          ∧ (force = false → is_processed w file_path st = (Ok false, st))
      | Err e =>
          e ≠ OSError
          ∧ (_get_file_info w file_path st).1 = Err e
          ∧ is_Some (dict_get (basename file_path) (processed_files st))
          ∧ is_updated w file_path st = (Err e, st)
          ∧ (force = false → is_processed w file_path st = (Err e, st))
      end.
Proof.
  change (∃ r, triage force w file_path st = (r, st)
               ∧ verdict_holds force w file_path st r).
  unfold triage.
  unfold mbind at 1, M_bind at 1.
  destruct force; cbn [negb].
  - unfold mret at 1, M_ret at 1. cbv iota beta.
    destruct (find_duplicate_answer w file_path st) as [r Hr].
    unfold mbind at 1, M_bind at 1. rewrite Hr.
    destruct (go_on_holds true w file_path st ltac:(done)) as (v & Hv & Hh).
    exists v. split; [by destruct r as [[? ?]|] | done].
  - rewrite is_processed_answer.
    destruct (processed_now w file_path (processed_files st)) as [[|]|e] eqn:Hp.
    + exists (Ok AlreadyProcessed). split; [done|]. simpl.
      by rewrite is_processed_answer, Hp.
    + assert (is_processed w file_path st = (Ok false, st)) as Hproc
        by by rewrite is_processed_answer, Hp.
      unfold mbind at 1, M_bind at 1.
      destruct (content_digest w file_path) as [h|] eqn:Hh.
      * destruct (find_duplicate_by_hash_spec w file_path h st Hh) as (r & Hr & Hspec).
        rewrite Hr. destruct r as [[name ext]|].
        -- exists (Ok (DuplicateOf name)). split; [done|]. simpl.
           destruct Hspec as (Hn & _ & info & Hin & Hc).
           repeat split; try done. exists info. rewrite Hc. eauto.
        -- by apply go_on_holds.
      * rewrite (hash_failure_keeps_going w file_path st Hh).
        by apply go_on_holds.
    + exists (Err e). split; [done|]. simpl.
      destruct (answer_raises false w file_path _ e Hp) as (Hne & Hc & Ht & Ho).
      rewrite get_file_info_current, is_updated_answer, is_processed_answer.
      unfold updated_now. rewrite (Ho true), Hp. done.
Qed.

(** The first world with one more file, stamped with the first second
    of the year 10000, which [datetime.fromtimestamp] rejects. *)
Definition far_future : World :=
  {| stat := fun p =>
       if String.eqb p "in/z.txt" then Some (5, 253402300800) else stat two_files p;
     content_digest := fun p =>
       if String.eqb p "in/z.txt" then Some "9c9c" else content_digest two_files p;
     isoformat := isoformat two_files;
     now := now two_files;
     can_save := true |}.

Lemma triage_verdicts_witness :
  triage false two_files "in/a.txt" (tracking b_then_a)
    = (Ok AlreadyProcessed, tracking b_then_a)
  ∧ triage false two_files "in/c.pdf" (tracking b_then_a)
    = (Ok (DuplicateOf "b.txt"), tracking b_then_a)
  ∧ triage true two_files "in/a.txt" (tracking b_then_a)
    = (Ok (ToParse false), tracking b_then_a)
  ∧ triage false far_future "in/z.txt" (tracking [("z.txt", record_of 5 1 "9c9c")])
    = (Err ValueError, tracking [("z.txt", record_of 5 1 "9c9c")]).
Proof.
  split; [|split; [|split]].
  - destruct (triage_verdicts false two_files "in/a.txt" (tracking b_then_a))
      as (v & Hv & _). rewrite Hv. injection Hv as <-. reflexivity.
  - destruct (triage_verdicts false two_files "in/c.pdf" (tracking b_then_a))
      as (v & Hv & _). rewrite Hv. injection Hv as <-. reflexivity.
  - destruct (triage_verdicts true two_files "in/a.txt" (tracking b_then_a))
      as (v & Hv & _). rewrite Hv. injection Hv as <-. reflexivity.
  - destruct (triage_verdicts false far_future "in/z.txt"
                (tracking [("z.txt", record_of 5 1 "9c9c")]))
      as (v & Hv & _). rewrite Hv. injection Hv as <-. reflexivity.
Defined.

(** The file names under which [file_chunks_map] will be tracked. *)
Definition tracked_names (file_chunks_map : list (string * Z)) : list string :=
  map (fun kv => basename kv.1) file_chunks_map.

Lemma mark_all_step (w : World) (raw_path : string) (n : Z)
    (rest : list (string * Z)) (st st' : State) :
  mark_all w ((raw_path, n) :: rest) st = (Ok tt, st') →
  ∃ st1, mark_processed w raw_path n st = (Ok tt, st1)
         ∧ mark_all w rest st1 = (Ok tt, st').
Proof.
  cbn [mark_all]. unfold mbind at 1, M_bind at 1.
  destruct (mark_processed w raw_path n st) as [[[]|e] st1]; [|done].
  intros H. by exists st1.
Qed.

Lemma mark_all_other (w : World) (files : list (string * Z)) (k : string) :
  ∀ st st', mark_all w files st = (Ok tt, st') →
    k ∉ tracked_names files →
    dict_get k (processed_files st') = dict_get k (processed_files st).
Proof.
  induction files as [|[p n] files IH]; intros st st'.
  - by intros [= <-].
  - intros (st1 & Hm & Hrest)%mark_all_step Hk.
    apply not_elem_of_cons in Hk as [Hne Hk]. simpl in Hne.
    rewrite (IH st1 st' Hrest Hk).
    apply mark_processed_returned in Hm as (sz & mt & date & h & _ & _ & _ & _ & ->).
    simpl. by apply dict_get_set_ne.
Qed.

Lemma processed_after_mark (w : World) (p : string) (n : Z) (st st1 : State) :
  mark_processed w p n st = (Ok tt, st1) →
  processed_now w p (processed_files st1) = Ok true.
Proof.
  intros (sz & mt & date & h & Hs & Hd & _ & _ & ->)%mark_processed_returned.
  unfold processed_now, answer, current_info. simpl.
  rewrite dict_get_set_eq, Hs, Hd.
  by rewrite changed_same.
Qed.

Lemma mark_all_marked (w : World) (files : list (string * Z)) :
  NoDup (tracked_names files) →
  ∀ st st', mark_all w files st = (Ok tt, st') →
    ∀ p n, (p, n) ∈ files → processed_now w p (processed_files st') = Ok true.
Proof.
  induction files as [|[p0 n0] files IH]; intros Hnd st st' Hall p n Hin.
  - by apply elem_of_nil in Hin.
  - apply NoDup_cons in Hnd as [Hfresh Hnd].
    apply mark_all_step in Hall as (st1 & Hm & Hrest).
    apply elem_of_cons in Hin as [[= -> ->]|Hin].
    + pose proof (processed_after_mark w p0 n0 st st1 Hm) as Hp.
      unfold processed_now, answer in *.
      by rewrite (mark_all_other w files (basename p0) st1 st' Hrest Hfresh).
    + by apply (IH Hnd st1 st' Hrest p n).
Qed.

(** X20.  A second run finds nothing to do.  When the marking loop at
    the end of a run has returned, for files with pairwise different
    names, and the files are as [os.stat] saw them then, the next run
    without [--force] passes over each of them as already processed, and
    deciding so changes nothing. *)
Theorem second_run_skips_the_marked (w : World) (file_chunks_map : list (string * Z))
    (st st' : State) :
  NoDup (tracked_names file_chunks_map) →
  mark_all w file_chunks_map st = (Ok tt, st') →
  ∀ raw_path chunks_count, (raw_path, chunks_count) ∈ file_chunks_map →
    triage false w raw_path st' = (Ok AlreadyProcessed, st').
Proof.
  intros Hnd Hall p n Hin.
  unfold triage. cbn [negb]. unfold mbind at 1, M_bind at 1.
  rewrite is_processed_answer.
  by rewrite (mark_all_marked w file_chunks_map Hnd st st' Hall p n Hin).
Qed.

Lemma second_run_skips_the_marked_witness :
  ∃ st', mark_all two_files [("in/a.txt", 3); ("in/b.txt", 5)] (tracking []) = (Ok tt, st')
    ∧ triage false two_files "in/a.txt" st' = (Ok AlreadyProcessed, st')
    ∧ triage false two_files "in/b.txt" st' = (Ok AlreadyProcessed, st').
Proof.
  eexists. split; [reflexivity|].
  assert (NoDup (tracked_names [("in/a.txt", 3); ("in/b.txt", 5)])) as Hnd.
  { apply NoDup_cons. split.
    - intros ?%list_elem_of_singleton. discriminate.
    - apply NoDup_singleton. }
  split.
  - apply (second_run_skips_the_marked two_files _ (tracking []) _ Hnd eq_refl
             "in/a.txt" 3). left.
  - apply (second_run_skips_the_marked two_files _ (tracking []) _ Hnd eq_refl
             "in/b.txt" 5). right. left.
Defined.

(** X21.  A copy under another name is not parsed again.  After
    [mark_processed] has returned for one path, a file with another name
    and the same digest that is not itself up to date in the tracker,
    whether it is new or a changed tracked file, is passed over as a
    duplicate by a run without [--force]. *)
Theorem copy_is_passed_over (w w' : World) (marked other h : string) (n : Z)
    (st st' : State) :
  mark_processed w marked n st = (Ok tt, st') →
  content_digest w marked = Some h →
  content_digest w' other = Some h →
  basename other ≠ basename marked →
  is_processed w' other st' = (Ok false, st') →
  ∃ name, triage false w' other st' = (Ok (DuplicateOf name), st').
Proof.
  intros Hm Hh Hh' Hne Hp.
  unfold triage. cbn [negb]. unfold mbind at 1, M_bind at 1. rewrite Hp.
  unfold mbind at 1, M_bind at 1.
  destruct (find_duplicate_by_hash_spec w' other h st' Hh') as (r & Hr & Hspec).
  rewrite Hr. destruct r as [[name ext]|]; [by exists name|].
  apply mark_processed_returned in Hm as (sz & mt & date & h0 & Hs & Hd & Hh0 & Hw & ->).
  assert (h0 = h) as -> by congruence.
  destruct (Hspec (basename marked) (new_record w sz mt date h n)); try done.
  apply elem_of_dict_set.
Qed.

Lemma copy_is_passed_over_witness :
  ∃ st', mark_processed two_files "in/a.txt" 4 (tracking []) = (Ok tt, st')
    ∧ triage false two_files "in/c.pdf" st' = (Ok (DuplicateOf "a.txt"), st').
Proof.
  eexists. split; [reflexivity|].
  destruct (copy_is_passed_over two_files two_files "in/a.txt" "in/c.pdf" "5e1f" 4
              (tracking []) _ eq_refl eq_refl eq_refl) as [name Hn].
  - discriminate.
  - reflexivity.
  - rewrite Hn. injection Hn as <-. reflexivity.
Defined.

End Driver.

(** ** The duplicate report of [scripts/check_duplicates.py] *)

Module DuplicateReport.
Import Py Tracker TrackerFacts DictFacts TrackerLaws.

(** One entry of a group (lines 28-33); a missing size or chunk count is
    0, a missing date is ['Unknown']. *)
Record entry := {
  e_filename : string;
  e_size : Z;
  e_chunks : Z;
  e_processed : string
}.

Definition entry_of (kv : string * FileRecord) : entry :=
  {| e_filename := kv.1;
     e_size := default 0 (size kv.2);
     e_chunks := default 0 (chunks_count kv.2);
     e_processed := default "Unknown" (processed_date kv.2) |}.

(** Lines 26-27: the hash under which a record is filed; a record
    without a hash, or with an empty one, is not filed. *)
Definition filed_under (info : FileRecord) : option string :=
  match content_hash info with
  | Some h => if truthy h then Some h else None
  | None => None
  end.

(** [hash_map[h].append(e)] on the [defaultdict(list)]: a new hash opens
    a group at the end. *)
Fixpoint append_to (h : string) (e : entry) (hash_map : list (string * list entry))
    : list (string * list entry) :=
  match hash_map with
  | [] => [(h, [e])]
  | (h', es) :: rest =>
      if String.eqb h' h then (h', es ++ [e]) :: rest
      else (h', es) :: append_to h e rest
  end.

(** Lines 25-33: one step of the loop over [processed_files.items()]. *)
Definition file_item (hash_map : list (string * list entry))
    (kv : string * FileRecord) : list (string * list entry) :=
  match filed_under kv.2 with
  | Some h => append_to h (entry_of kv) hash_map
  | None => hash_map
  end.

(** Lines 21-33 *)
Definition build_hash_map (items : store) : list (string * list entry) :=
  foldl file_item [] items.

(** Line 36: the groups of more than one file. *)
Definition duplicates (items : store) : list (string * list entry) :=
  filter (fun g => (1 < length g.2)%nat) (build_hash_map items).

(** Lines 59-60 *)
Definition total_duplicate_files (groups : list (string * list entry)) : Z :=
  foldr Z.add 0 (map (fun g => Z.of_nat (length g.2)) groups).

Definition wasted_files (groups : list (string * list entry)) : Z :=
  total_duplicate_files groups - Z.of_nat (length groups).

(** The group of a hash, [None] when the hash has none. *)
Fixpoint group (h : string) (hash_map : list (string * list entry))
    : option (list entry) :=
  match hash_map with
  | [] => None
  | (h', es) :: rest => if String.eqb h' h then Some es else group h rest
  end.

(** The entries of the records filed under [h], in dictionary order. *)
Definition filed (h : string) (items : store) : list entry :=
  map entry_of (filter (fun kv => filed_under kv.2 = Some h) items).

Lemma group_append_to (h h' : string) (e : entry) (hm : list (string * list entry)) :
  group h' (append_to h e hm) =
    if String.eqb h h' then Some (default [] (group h hm) ++ [e]) else group h' hm.
Proof.
  induction hm as [|[h0 es] hm IH]; simpl.
  - by destruct (String.eqb h h').
  - destruct (String.eqb_spec h0 h) as [->|E0]; simpl.
    + by destruct (String.eqb h h').
    + rewrite IH. destruct (String.eqb_spec h h') as [->|E1].
      * by apply String.eqb_neq in E0 as ->.
      * by destruct (String.eqb h0 h').
Qed.

Lemma keys_append_to (h : string) (e : entry) (hm : list (string * list entry)) :
  NoDup (map fst hm) → NoDup (map fst (append_to h e hm)).
Proof.
  induction hm as [|[h0 es] hm IH]; simpl.
  - intros _. apply NoDup_singleton.
  - intros [Hn Hd]%NoDup_cons.
    destruct (String.eqb_spec h0 h) as [->|E0]; simpl.
    + by apply NoDup_cons.
    + apply NoDup_cons. split; [|by apply IH].
      intros Hin. apply Hn. clear -Hin E0.
      induction hm as [|[h1 es1] hm IH]; simpl in *.
      * apply list_elem_of_singleton in Hin. congruence.
      * destruct (String.eqb h1 h); simpl in *; [done|].
        apply elem_of_cons in Hin as [->|Hin]; [left | right; by apply IH].
Qed.

Lemma group_elem (h : string) (es : list entry) (hm : list (string * list entry)) :
  NoDup (map fst hm) → ((h, es) ∈ hm ↔ group h hm = Some es).
Proof.
  induction hm as [|[h0 es0] hm IH]; simpl.
  - intros _. split; [by intros ?%elem_of_nil | done].
  - intros [Hn Hd]%NoDup_cons. rewrite elem_of_cons.
    destruct (String.eqb_spec h0 h) as [->|E0].
    + split.
      * intros [[= ->]|Hin]; [done|]. destruct Hn.
        apply list_elem_of_fmap. by exists (h, es).
      * intros [= ->]. by left.
    + rewrite <- (IH Hd). split; [intros [[= ? ?]|?]; [congruence | done] | by right].
Qed.

(** What the loop keeps: no hash opens two groups, no group is empty,
    and the group of a hash holds the entries filed under it so far. *)
Definition filing (hm : list (string * list entry)) (done : store) : Prop :=
  NoDup (map fst hm)
  ∧ ∀ h, match group h hm with
         | Some es => es = filed h done ∧ es ≠ []
         | None => filed h done = []
         end.

Lemma filed_snoc (h : string) (done : store) (kv : string * FileRecord) :
  filed h (done ++ [kv]) =
    filed h done ++ (if decide (filed_under kv.2 = Some h) then [entry_of kv] else []).
Proof.
  unfold filed, store in *. rewrite filter_app, map_app. f_equal.
  rewrite filter_cons. by destruct (decide _).
Qed.

Lemma filing_step (hm : list (string * list entry)) (done : store)
    (kv : string * FileRecord) :
  filing hm done → filing (file_item hm kv) (done ++ [kv]).
Proof.
  intros [Hnd Hg]. unfold file_item.
  destruct (filed_under kv.2) as [h|] eqn:Hf.
  - split; [by apply keys_append_to|]. intros h'.
    rewrite group_append_to, filed_snoc, Hf.
    destruct (String.eqb_spec h h') as [->|E].
    + rewrite decide_True by done. specialize (Hg h').
      destruct (group h' hm) as [es|]; simpl.
      * destruct Hg as [-> _]. split; [done|]. by destruct (filed h' done).
      * by rewrite Hg.
    + rewrite decide_False by congruence. rewrite app_nil_r. apply Hg.
  - split; [done|]. intros h'. rewrite filed_snoc, Hf.
    rewrite decide_False by done. rewrite app_nil_r. apply Hg.
Qed.

Lemma filing_loop (items : store) :
  ∀ hm done, filing hm done → filing (foldl file_item hm items) (done ++ items).
Proof.
  induction items as [|kv items IH]; intros hm done H; simpl.
  - by rewrite app_nil_r.
  - rewrite (cons_middle kv done items), app_assoc. apply IH.
    by apply filing_step.
Qed.

Lemma filing_built (items : store) : filing (build_hash_map items) items.
Proof.
  apply (filing_loop items [] []). split; [apply NoDup_nil_2 | done].
Qed.

Lemma duplicates_spec (items : store) (h : string) (es : list entry) :
  (h, es) ∈ duplicates items ↔ es = filed h items ∧ (2 ≤ length es)%nat.
Proof.
  destruct (filing_built items) as [Hnd Hg]. unfold duplicates.
  rewrite list_elem_of_filter, (group_elem h es _ Hnd). simpl.
  specialize (Hg h). destruct (group h (build_hash_map items)) as [es0|].
  - destruct Hg as [-> _]. split.
    + intros [Hl [= <-]]. split; [done | lia].
    + intros [-> Hl]. split; [lia | done].
  - split; [by intros [_ ?] |]. intros [-> Hl]. rewrite Hg in Hl. simpl in Hl. lia.
Qed.

Lemma keys_filter {A} (P : string * A → Prop) `{∀ x, Decision (P x)}
    (l : list (string * A)) :
  NoDup (map fst l) → NoDup (map fst (filter P l)).
Proof.
  induction l as [|x l IH]; simpl; [done|].
  intros [Hn Hd]%NoDup_cons. rewrite filter_cons.
  destruct (decide (P x)); simpl; [|by apply IH].
  apply NoDup_cons. split; [|by apply IH].
  intros (y & Hy & Hin)%list_elem_of_fmap. apply Hn.
  apply list_elem_of_filter in Hin as [_ Hin].
  apply list_elem_of_fmap. by exists y.
Qed.

Lemma total_at_least_twice (groups : list (string * list entry)) :
  (∀ g, g ∈ groups → (2 ≤ length g.2)%nat) →
  2 * Z.of_nat (length groups) <= total_duplicate_files groups.
Proof.
  unfold total_duplicate_files.
  induction groups as [|g groups IH]; intros Hall; simpl; [lia|].
  pose proof (Hall g ltac:(left)).
  assert (∀ g', g' ∈ groups → (2 ≤ length g'.2)%nat) as Hrest
    by (intros g' Hg'; apply Hall; by right).
  specialize (IH Hrest). lia.
Qed.

Lemma reported_groups_at (items : store) (h : string) (es : list entry) :
  (h, es) ∈ duplicates items ↔ es = filed h items ∧ (2 ≤ length es)%nat.
Proof. apply duplicates_spec. Qed.

(** X23.  The report of [check_duplicates.py].  A group is reported under
    a hash exactly when at least two records are filed under it, and the
    group then lists exactly those records, in the order of the
    dictionary; a record whose hash is missing or empty is in no group.
    No hash has two groups, and the number of unnecessary copies is at
    least the number of groups. *)
Theorem reported_groups (items : store) :
  (∀ h es, (h, es) ∈ duplicates items ↔
     es = filed h items ∧ (2 ≤ length es)%nat)
  ∧ NoDup (map fst (duplicates items))
  ∧ Z.of_nat (length (duplicates items)) <= wasted_files (duplicates items).
Proof.
  split; [apply duplicates_spec|]. split.
  - unfold duplicates. apply keys_filter. apply (filing_built items).
  - unfold wasted_files.
    pose proof (total_at_least_twice (duplicates items)) as H.
    assert (∀ g, g ∈ duplicates items → (2 ≤ length g.2)%nat) as Hall.
    { intros [h es] Hg. by apply duplicates_spec in Hg as [_ ?]. }
    specialize (H Hall). lia.
Qed.

Lemma two_members {A} (x y : A) (l : list A) :
  x ∈ l → y ∈ l → x ≠ y → (2 ≤ length l)%nat.
Proof.
  intros Hx Hy Hne. destruct l as [|a [|b l]]; simpl; [|exfalso|lia].
  - by apply elem_of_nil in Hx.
  - apply list_elem_of_singleton in Hx, Hy. congruence.
Qed.

Lemma filed_member (h : string) (items : store) (kv : string * FileRecord) :
  kv ∈ items → content_hash kv.2 = Some h → truthy h = true →
  kv.1 ∈ map e_filename (filed h items).
Proof.
  intros Hin Hh Ht. unfold filed. rewrite map_map. simpl.
  apply list_elem_of_fmap. exists kv. split; [done|].
  apply list_elem_of_filter. split; [|done].
  unfold filed_under. by rewrite Hh, Ht.
Qed.

(** X24.  The report agrees with [find_duplicate_by_hash].  When a path
    whose own record holds the digest of its content is answered with a
    duplicate, the report has a group under that digest, and both file
    names are in it. *)
Theorem answered_duplicate_is_reported (w : World) (file_path h name ext : string)
    (info : FileRecord) (st : State) :
  content_digest w file_path = Some h → truthy h = true →
  (basename file_path, info) ∈ processed_files st → content_hash info = Some h →
  find_duplicate_by_hash w file_path st = (Ok (Some (name, ext)), st) →
  ∃ es, (h, es) ∈ duplicates (processed_files st)
    ∧ basename file_path ∈ map e_filename es
    ∧ name ∈ map e_filename es.
Proof.
  intros Hh Ht Hown Hinfo Hfound.
  destruct (find_duplicate_by_hash_spec w file_path h st Hh) as (r & Hr & Hspec).
  rewrite Hfound in Hr. injection Hr as <-.
  destruct Hspec as (Hne & _ & info' & Hin' & Hh').
  pose proof (filed_member h _ _ Hown Hinfo Ht) as H1.
  pose proof (filed_member h _ _ Hin' Hh' Ht) as H2. simpl in H1, H2.
  exists (filed h (processed_files st)). split; [|done].
  apply duplicates_spec. split; [done|].
  rewrite <- (length_map e_filename).
  by apply (two_members (basename file_path) name).
Qed.

Lemma answered_duplicate_is_reported_witness :
  ∃ es, ("5e1f", es) ∈ duplicates a_then_b
    ∧ map e_filename es = ["a.txt"; "b.txt"].
Proof.
  destruct (answered_duplicate_is_reported two_files "in/a.txt" "5e1f" "b.txt" ".txt"
              (record_of 12 1700000000 "5e1f") (tracking a_then_b))
    as (es & Hes & _); try reflexivity; [left|].
  exists es. split; [exact Hes|].
  apply (proj1 (reported_groups_at a_then_b "5e1f" es)) in Hes as [-> _]. reflexivity.
Defined.

End DuplicateReport.
